(** * OpenTTD savegame reader: the schema-driven decoder of [savegame.py]

    A shallow embedding of [savegame_reader/savegame.py] (class [Savegame])
    and the properties of its schema parser, record decoder, chunk
    dispatcher and SLXI decoder.

    Conventions.
    - Python [bytes] and [memoryview] values are [list byte]; slicing
      [data[a:b]] is [firstn]/[skipn], which never fails, as in Python.
    - A Python [str] is represented by its UTF-8 encoding, a [string];
      [bytes.decode()] checks that the bytes are well-formed UTF-8.
    - A Python [dict] is an insertion-ordered association list with unique
      keys ([Dict.set] overwrites in place or appends).
    - Python integers are [Z].
    - A call either returns, raises, or does not return; [result] has one
      constructor for each.  A raised exception aborts the whole decode, so
      the state at the point of the raise is not kept. *)

From Stdlib Require Import ZArith List Bool Lia.
From Stdlib Require Import Strings.String Strings.Ascii Strings.Byte.
From Stdlib Require Import Numbers.DecimalString Numbers.DecimalZ Numbers.DecimalPos.
Import ListNotations.

Set Warnings "-register-all".

Local Open Scope string_scope.
Local Open Scope Z_scope.

(** ** Outcomes of a call *)

Inductive exn : Type :=
| ValidationException (msg : string)   (* exceptions.ValidationException *)
| StructError                          (* struct.error *)
| ValueError                           (* ValueError, from the enum lookup *)
| KeyError                             (* KeyError, from a dict lookup *)
| UnicodeDecodeError.                  (* from bytes.decode() *)

Inductive result (A : Type) : Type :=
| Ok (a : A)
| Raise (e : exn)
| OutOfFuel.

Arguments Ok {A} a.
Arguments Raise {A} e.
Arguments OutOfFuel {A}.

Definition bind {A B : Type} (m : result A) (k : A -> result B) : result B :=
  match m with
  | Ok a => k a
  | Raise e => Raise e
  | OutOfFuel => OutOfFuel
  end.

Declare Scope result_scope.
Delimit Scope result_scope with result.
Notation "x <- m ;; k" := (bind m (fun x => k))
  (at level 61, m at next level, right associativity) : result_scope.
Notation "' p <- m ;; k" := (bind m (fun x => match x with p => k end))
  (at level 61, p pattern, m at next level, right associativity)
  : result_scope.
Local Open Scope result_scope.

(** A collaborator outside [savegame.py] returns or raises. *)
Definition outcome (A : Type) : Type := (exn + A)%type.

Definition lift {A : Type} (o : outcome A) : result A :=
  match o with
  | inl e => Raise e
  | inr a => Ok a
  end.

Definition option_or {A : Type} (o : option A) (e : exn) : result A :=
  match o with
  | Some a => Ok a
  | None => Raise e
  end.

(** ** Python dictionaries *)

Module Dict.

Definition t (V : Type) : Type := list (string * V).

Definition empty {V : Type} : t V := [].

Fixpoint get {V : Type} (d : t V) (k : string) : option V :=
  match d with
  | [] => None
  | (k', v) :: d' => if String.eqb k k' then Some v else get d' k
  end.

(** [d[k] = v]: an existing key keeps its position, a new key goes last. *)
Fixpoint set {V : Type} (d : t V) (k : string) (v : V) : t V :=
  match d with
  | [] => [(k, v)]
  | (k', v') :: d' =>
      if String.eqb k k' then (k', v) :: d' else (k', v') :: set d' k v
  end.

Definition keys {V : Type} (d : t V) : list string := map fst d.

(** The truth value of a dict: [if d:]. *)
Definition truthy {V : Type} (d : t V) : bool :=
  match d with [] => false | _ :: _ => true end.

(** [defaultdict(dict)]: reading a missing key yields a fresh dict. *)
Definition get_default {V : Type} (d : t (t V)) (k : string) : t V :=
  match get d k with Some v => v | None => empty end.

End Dict.

(** ** Bytes, integers and text *)

Definition byte_Z (b : byte) : Z := Z.of_N (Byte.to_N b).

(** [struct.unpack(">b", ...)]: a signed byte. *)
Definition int8_of_byte (b : byte) : Z :=
  let v := byte_Z b in if v <? 128 then v else v - 256.

(** Big-endian unsigned integer held in a byte string. *)
Definition be_uint (bs : list byte) : Z :=
  fold_left (fun acc b => Z.lor (Z.shiftl acc 8) (byte_Z b)) bs 0.

(** Well-formed UTF-8, as the strict decoder of [bytes.decode()] accepts it:
    shortest forms only, no surrogates, nothing above U+10FFFF. *)
Definition in_range (lo hi : Z) (b : byte) : bool :=
  (lo <=? byte_Z b) && (byte_Z b <=? hi).

Fixpoint utf8_valid_fuel (fuel : nat) (bs : list byte) : bool :=
  match fuel with
  | O => match bs with [] => true | _ => false end
  | S fuel' =>
      match bs with
      | [] => true
      | b0 :: r0 =>
          if in_range 0 127 b0 then utf8_valid_fuel fuel' r0
          else
            match r0 with
            | [] => false
            | b1 :: r1 =>
                if in_range 194 223 b0 then
                  in_range 128 191 b1 && utf8_valid_fuel fuel' r1
                else
                  match r1 with
                  | [] => false
                  | b2 :: r2 =>
                      let three :=
                        (in_range 224 224 b0 && in_range 160 191 b1)
                        || ((in_range 225 236 b0 || in_range 238 239 b0)
                            && in_range 128 191 b1)
                        || (in_range 237 237 b0 && in_range 128 159 b1) in
                      if in_range 224 239 b0 then
                        three && in_range 128 191 b2
                        && utf8_valid_fuel fuel' r2
                      else
                        match r2 with
                        | [] => false
                        | b3 :: r3 =>
                            let four :=
                              (in_range 240 240 b0 && in_range 144 191 b1)
                              || (in_range 241 243 b0 && in_range 128 191 b1)
                              || (in_range 244 244 b0 && in_range 128 143 b1) in
                            four && in_range 128 191 b2 && in_range 128 191 b3
                            && utf8_valid_fuel fuel' r3
                        end
                  end
            end
      end
  end.

Definition utf8_valid (bs : list byte) : bool :=
  utf8_valid_fuel (List.length bs) bs.

(** [bs.decode()] *)
Definition decode (bs : list byte) : result string :=
  if utf8_valid bs then Ok (string_of_list_byte bs)
  else Raise UnicodeDecodeError.

(** [str(n)] for an integer. *)
Definition str (n : Z) : string := NilZero.string_of_int (Z.to_int n).

(** Slices [data[:n]] and [data[n:]] with a bound that is not negative, as
    the unsigned sizes of the SLXI decoder are; below zero the bound is
    read as zero. *)
Definition take (n : Z) (data : list byte) : list byte :=
  firstn (Z.to_nat n) data.
Definition drop (n : Z) (data : list byte) : list byte :=
  skipn (Z.to_nat n) data.

Definition bytes_eqb (a b : list byte) : bool :=
  if list_eq_dec Byte.byte_eq_dec a b then true else false.

Definition chr (n : nat) : string := String (ascii_of_nat n) EmptyString.

Definition hex_digit (n : Z) : string :=
  match String.get (Z.to_nat n) "0123456789abcdef" with
  | Some c => String c EmptyString
  | None => EmptyString
  end.

(** [repr] of a bytes object, which is how an f-string shows one. *)
Definition bytes_repr (bs : list byte) : string :=
  let has c := existsb (fun b => byte_Z b =? c) bs in
  let quote := if has 39 && negb (has 34) then 34 else 39 in
  let show b :=
    let c := byte_Z b in
    if (c =? quote) || (c =? 92) then chr 92 ++ chr (Z.to_nat c)
    else if c =? 9 then chr 92 ++ "t"
    else if c =? 10 then chr 92 ++ "n"
    else if c =? 13 then chr 92 ++ "r"
    else if (c <? 32) || (127 <=? c) then
      chr 92 ++ "x" ++ hex_digit (Z.shiftr c 4) ++ hex_digit (Z.land c 15)
    else chr (Z.to_nat c) in
  "b" ++ chr (Z.to_nat quote) ++ String.concat "" (map show bs)
  ++ chr (Z.to_nat quote).

(** ** Decoded values and schemas *)

(** Modelled from the spec: [enums.py] is absent.  [FieldType] is a closed
    enumeration of scalar kinds (fixed-width integers of several widths and
    signedness), a string kind and the composite STRUCT kind.  The integer
    kinds are kept by their enumeration value. *)
Inductive FieldType : Type :=
| SCALAR (code : Z)
| STRING
| STRUCT.

Definition is_STRING (f : FieldType) : bool :=
  match f with STRING => true | _ => false end.
Definition is_STRUCT (f : FieldType) : bool :=
  match f with STRUCT => true | _ => false end.

(** A field tuple [(field_type, is_list, name)]. *)
Record Field : Type := mkField {
  field_type : FieldType;     (* field[0] *)
  field_is_list : bool;       (* field[1] *)
  field_name : string         (* field[2] *)
}.

Definition Table : Type := list Field.
Definition Tables : Type := Dict.t Table.

(** What a decoded field holds: an integer, text, a list, or a nested
    record. *)
Inductive value : Type :=
| VInt (n : Z)
| VStr (s : string)
| VList (l : list value)
| VDict (d : list (string * value)).

Definition Item : Type := Dict.t value.

(** An entry of [self.tables]: the tables of a chunk, or the one-key dict
    [{label: ""}] that marks a chunk without parsed tables. *)
Inductive TableSet : Type :=
| Parsed (tables : Tables)
| Marked (label : string).

(** The attributes of a [Savegame] object. *)
Record Savegame : Type := mkSavegame {
  savegame_version : option Z;
  tables : Dict.t TableSet;
  items : Dict.t (Dict.t Item)
}.

(** [Savegame.__init__] *)
Definition init : Savegame :=
  {| savegame_version := None; tables := Dict.empty; items := Dict.empty |}.

Definition set_tables (self : Savegame) (tag : string) (ts : TableSet)
  : Savegame :=
  {| savegame_version := savegame_version self;
     tables := Dict.set (tables self) tag ts;
     items := items self |}.

(** [self.items[tag][index] = item] on a [defaultdict(dict)]. *)
Definition set_item (self : Savegame) (tag index : string) (item : Item)
  : Savegame :=
  {| savegame_version := savegame_version self;
     tables := tables self;
     items := Dict.set (items self) tag
                (Dict.set (Dict.get_default (items self) tag) index item) |}.

(** ** The collaborators that are not part of [savegame.py] *)

(** The primitives [savegame.py] imports and whose code is not part of this
    development.  [gamma_decode s] decodes the gamma integer at the front of
    [s] and gives its value and the number of bytes of its encoding. *)
Record External : Type := mkExternal {
  (* binreader: the gamma primitive of the stream readers *)
  gamma_decode : list byte -> outcome (Z * nat);
  (* enums: FieldType(v), None when v is no member *)
  FieldType_of_int : Z -> option FieldType;
  (* enums: FIELD_TYPE_HAS_LENGTH_FIELD *)
  FIELD_TYPE_HAS_LENGTH_FIELD : Z;
  (* passthrough: the READERS table, None when the kind has no entry *)
  READERS : FieldType -> option (list byte -> outcome (value * list byte));
  (* passthrough: read_gamma and read_string on a memoryview *)
  read_gamma : list byte -> outcome (Z * list byte);
  read_string : list byte -> outcome (string * list byte);
  (* compression: UNCOMPRESS.get(magic) and the decompressor's open() *)
  UNCOMPRESS : list byte -> option (list byte -> outcome (list byte))
}.

(** ** The stream readers of [binreader] *)

(** Modelled from the spec: [binreader.py] is absent.  A reader is a
    sequential cursor over a byte stream, here the bytes not yet read.
    [read n] hands out at most [n] bytes (fewer at the end of the stream,
    which is what [Savegame.read] tests for, and none for a count below
    zero, which no well-formed stream asks for); the fixed-width reads are
    big-endian and raise [ValidationException] at the end of the stream, the
    exception [_check_tail] expects. *)
Module Reader.

Definition t : Type := list byte.

Definition eof : exn := ValidationException "Unexpected end-of-file.".

Definition read (n : Z) (r : t) : list byte * t := (take n r, drop n r).

Definition uint (width : nat) (r : t) : result (Z * t) :=
  if (List.length r <? width)%nat then Raise eof
  else Ok (be_uint (firstn width r), skipn width r).

Definition uint8 : t -> result (Z * t) := uint 1.
Definition uint16 : t -> result (Z * t) := uint 2.
Definition uint24 : t -> result (Z * t) := uint 3.
Definition uint32 : t -> result (Z * t) := uint 4.

(** [reader.gamma()]: the value and the length of the encoding; the
    cursor moves past the encoding. *)
Definition gamma (X : External) (r : t) : result ((Z * Z) * t) :=
  '(v, n) <- lift (gamma_decode X r) ;;
  Ok ((v, Z.of_nat n), skipn n r).

End Reader.

(** Modelled from the spec: [passthrough.py] is absent.  The fixed-width
    readers of [PassthroughReader] take a big-endian unsigned integer off
    the front of a memoryview and return it with the rest; on fewer bytes
    than the width [struct.unpack] raises. *)
Definition read_uint (width : nat) (data : list byte)
  : result (Z * list byte) :=
  if (List.length data <? width)%nat then Raise StructError
  else Ok (be_uint (firstn width data), skipn width data).

Definition read_uint16 : list byte -> result (Z * list byte) := read_uint 2.
Definition read_uint32 : list byte -> result (Z * list byte) := read_uint 4.

(** ** [class Savegame] *)

Section Savegame.

Variable X : External.

(** *** Schema parser *)

(** The [while True] loop of [_read_table]; one unit of fuel per
    iteration. *)
Fixpoint _read_table_loop (fuel : nat) (reader : Reader.t)
    (fields : Table) (size : Z) : result ((Table * Z) * Reader.t) :=
  match fuel with
  | O => OutOfFuel
  | S fuel' =>
      let (b1, reader) := Reader.read 1 reader in
      match b1 with
      | [] => Raise StructError
      | b :: _ =>
          let type := int8_of_byte b in
          let size := size + 1 in
          if type =? 0 then Ok ((fields, size), reader)
          else
            '((key_length, index_size), reader) <- Reader.gamma X reader ;;
            let (key, reader) := Reader.read key_length reader in
            field_type <-
              option_or (FieldType_of_int X (Z.land type 15)) ValueError ;;
            name <- decode key ;;
            let is_list :=
              negb (Z.land type (FIELD_TYPE_HAS_LENGTH_FIELD X) =? 0) in
            let fields := (fields ++ [mkField field_type is_list name])%list in
            let size := size + (key_length + index_size) in
            _read_table_loop fuel' reader fields size
      end
  end.

(** Every iteration takes a byte off the stream, so the loop runs at most
    once more than there are bytes. *)
Definition _read_table (reader : Reader.t)
  : result ((Table * Z) * Reader.t) :=
  _read_table_loop (S (List.length reader)) reader [] 0.

(** The [for field in tables[key]] loop of [_read_substruct]; [rec] is the
    recursive call.  The dict [tables] is shared with the caller and
    updated in place, so it is returned next to the size. *)
Fixpoint _read_substruct_loop
    (rec : Reader.t -> Tables -> string -> result ((Z * Reader.t) * Tables))
    (key : string) (fields : Table)
    (reader : Reader.t) (tables : Tables) (size : Z)
  : result ((Z * Reader.t) * Tables) :=
  match fields with
  | [] => Ok ((size, reader), tables)
  | field :: rest =>
      if is_STRUCT (field_type field) then
        let table_key := key ++ "." ++ field_name field in
        '((sub, sub_size), reader) <- _read_table reader ;;
        let tables := Dict.set tables table_key sub in
        let size := size + sub_size in
        '((rec_size, reader), tables) <- rec reader tables table_key ;;
        let size := size + rec_size in
        _read_substruct_loop rec key rest reader tables size
      else _read_substruct_loop rec key rest reader tables size
  end.

(** One unit of fuel per level of nesting. *)
Fixpoint _read_substruct_fuel (fuel : nat) (reader : Reader.t)
    (tables : Tables) (key : string) : result ((Z * Reader.t) * Tables) :=
  match fuel with
  | O => OutOfFuel
  | S fuel' =>
      fields <- option_or (Dict.get tables key) KeyError ;;
      _read_substruct_loop (_read_substruct_fuel fuel') key fields
        reader tables 0
  end.

(** A nested table is read before the descent into it, and reading one
    takes a byte: the nesting is never deeper than the stream is long. *)
Definition _read_substruct (reader : Reader.t) (tables : Tables)
    (key : string) : result ((Z * Reader.t) * Tables) :=
  _read_substruct_fuel (S (List.length reader)) reader tables key.

Definition read_all_tables (tag : string) (reader : Reader.t)
  : result ((Tables * Z) * Reader.t) :=
  '((root, size), reader) <- _read_table reader ;;
  let tables := Dict.set Dict.empty "root" root in
  '((sub_size, reader), tables) <- _read_substruct reader tables "root" ;;
  let size := size + sub_size in
  Ok ((tables, size), reader).

(** [_check_tail]: succeeds when [uint8] raises [ValidationException]. *)
Definition _check_tail (reader : Reader.t) (item : string) : result unit :=
  match Reader.uint8 reader with
  | Raise (ValidationException _) => Ok tt
  | Ok _ => Raise (ValidationException ("Junk at the end of " ++ item ++ "."))
  | Raise e => Raise e
  | OutOfFuel => OutOfFuel
  end.

(** *** Record decoder *)

(** [for _ in range(n): item, data = ...; res.append(item)] *)
Fixpoint read_list (n : nat)
    (read_one : list byte -> result (value * list byte))
    (data : list byte) : result (list value * list byte) :=
  match n with
  | O => Ok ([], data)
  | S n' =>
      '(item, data) <- read_one data ;;
      '(res, data) <- read_list n' read_one data ;;
      Ok (item :: res, data)
  end.

(** [read_field] past its first [if]: the path of a call with
    [is_list = False].  [rec] is [_read_item]. *)
Definition read_field_single
    (rec : list byte -> Tables -> string -> result (Item * list byte))
    (data : list byte) (tables : Tables) (field : FieldType)
    (field_name key : string) : result (value * list byte) :=
  if is_STRUCT field then
    '(res, data) <- rec data tables (key ++ "." ++ field_name) ;;
    Ok (VDict res, data)
  else
    reader <- option_or (READERS X field) KeyError ;;
    lift (reader data).

Definition read_field
    (rec : list byte -> Tables -> string -> result (Item * list byte))
    (data : list byte) (tables : Tables) (field : FieldType)
    (is_list : bool) (field_name key : string)
  : result (value * list byte) :=
  if is_list && negb (is_STRING field) then
    '(length, data) <- lift (read_gamma X data) ;;
    '(res, data) <-
      read_list (Z.to_nat length)
        (fun data => read_field_single rec data tables field field_name key)
        data ;;
    Ok (VList res, data)
  else read_field_single rec data tables field field_name key.

(** The [for field in tables[key]] loop of [_read_item]. *)
Fixpoint _read_item_loop
    (rec : list byte -> Tables -> string -> result (Item * list byte))
    (fields : Table) (data : list byte) (tables : Tables) (key : string)
    (result_ : Item) : result (Item * list byte) :=
  match fields with
  | [] => Ok (result_, data)
  | field :: rest =>
      '(res, data) <-
        read_field rec data tables (field_type field) (field_is_list field)
          (field_name field) key ;;
      _read_item_loop rec rest data tables key
        (Dict.set result_ (field_name field) res)
  end.

(** One unit of fuel per level of STRUCT nesting. *)
Fixpoint _read_item_fuel (fuel : nat) (data : list byte) (tables : Tables)
    (key : string) : result (Item * list byte) :=
  fields <- option_or (Dict.get tables key) KeyError ;;
  match fuel with
  | O => OutOfFuel
  | S fuel' =>
      _read_item_loop (_read_item_fuel fuel') fields data tables key
        Dict.empty
  end.

(** A nested record is decoded under a key that is in [tables] and longer
    than the key of the record around it: the nesting is never deeper
    than [tables] has keys. *)
Definition _read_item (data : list byte) (tables : Tables) (key : string)
  : result (Item * list byte) :=
  _read_item_fuel (S (List.length tables)) data tables key.

(** *** Records of a chunk *)

Definition set_version (self : Savegame) (v : Z) : Savegame :=
  {| savegame_version := Some v;
     tables := tables self;
     items := items self |}.

(** The tags of [read_item]'s tuple [("GSDT", "AIPL")]. *)
Definition junk_allowed (tag : string) : bool :=
  String.eqb tag "GSDT" || String.eqb tag "AIPL".

Definition read_item (tag : string) (tables : Tables) (index : Z)
    (data : list byte) (self : Savegame) : result Savegame :=
  let table_index := if index =? -1 then "0" else str index in
  if Dict.truthy tables then
    '(item, data) <- _read_item data tables "root" ;;
    let self := set_item self tag table_index item in
    if negb (junk_allowed tag) then
      if negb (List.length data =? 0)%nat then
        Raise (ValidationException ("Junk at end of chunk " ++ tag))
      else Ok self
    else Ok self
  else Ok (set_tables self tag (Marked "unsupported")).

(** *** The SLXI chunk *)

Definition slxi_flag_names (flags : Z) : list value :=
  ((if negb (Z.land flags 1 =? 0) then [VStr "ignorable unknown"] else [])
   ++ (if negb (Z.land flags 2 =? 0) then [VStr "ignorable version"] else [])
   ++ (if negb (Z.land flags 4 =? 0) then [VStr "extra data present"] else [])
   ++ (if negb (Z.land flags 8 =? 0) then [VStr "chunk ID list present"]
       else []))%list.

(** [for _ in range(extra_chunk_count)] *)
Fixpoint read_slxi_chunks (n : nat) (data : list byte)
  : result (list value * list byte) :=
  match n with
  | O => Ok ([], data)
  | S n' =>
      name <- decode (take 4 data) ;;
      let data := drop 4 data in
      '(chunks, data) <- read_slxi_chunks n' data ;;
      Ok (VStr name :: chunks, data)
  end.

(** The body of [for idx in range(item_count)], up to the store. *)
Definition read_slxi_item (data : list byte) : result (Item * list byte) :=
  '(flags, data) <- read_uint32 data ;;
  '(version, data) <- read_uint16 data ;;
  '(name, data) <- lift (read_string X data) ;;
  let flag_names := slxi_flag_names flags in
  let item : Item :=
    [("name", VStr name); ("version", VInt version);
     ("flags", VList flag_names)] in
  '(item, data) <-
    (if negb (Z.land flags 4 =? 0) then
       '(extra_data_size, data) <- read_uint32 data ;;
       extra <-
         (if String.eqb name "version_label" then
            text <- decode (take extra_data_size data) ;; Ok (VStr text)
          else
            Ok (VList (map (fun b => VInt (byte_Z b))
                         (take extra_data_size data)))) ;;
       Ok (Dict.set item "extra_data" extra, drop extra_data_size data)
     else Ok (item, data)) ;;
  '(item, data) <-
    (if negb (Z.land flags 8 =? 0) then
       '(extra_chunk_count, data) <- read_uint32 data ;;
       '(chunks, data) <-
         read_slxi_chunks (Z.to_nat extra_chunk_count) data ;;
       Ok (Dict.set item "chunks" (VList chunks), data)
     else Ok (item, data)) ;;
  Ok (item, data).

(** [for idx in range(item_count)], from [idx] on; the local [data] at
    the end of the loop is returned with the object. *)
Fixpoint read_slxi_items (n : nat) (idx : Z) (tag : string)
    (data : list byte) (self : Savegame)
  : result (Savegame * list byte) :=
  match n with
  | O => Ok (self, data)
  | S n' =>
      '(item, data) <- read_slxi_item data ;;
      let self := set_item self tag (str idx) item in
      read_slxi_items n' (idx + 1) tag data self
  end.

Definition read_slxi (tag : string) (data : list byte) (self : Savegame)
  : result Savegame :=
  let self := set_tables self tag (Marked "unsupported") in
  '(chunk_version, data) <- read_uint32 data ;;
  if chunk_version >? 0 then Ok self
  else
    '(chunk_flags, data) <- read_uint32 data ;;
    if negb (chunk_flags =? 0) then Ok self
    else
      let self := set_tables self tag (Marked "slxi") in
      '(item_count, data) <- read_uint32 data ;;
      '(self, _) <- read_slxi_items (Z.to_nat item_count) 0 tag data self ;;
      Ok self.

(** *** Chunk dispatcher *)

(** [read], the [if type >= 3: ... else: tables = {}] statement. *)
Definition read_chunk_tables (tag : string) (type : Z) (reader : Reader.t)
    (self : Savegame) : result ((Tables * Reader.t) * Savegame) :=
  if 3 <=? type then
    '((outer, _), reader) <- Reader.gamma X reader ;;
    let size := outer - 1 in
    '((tables, size_read), reader) <- read_all_tables tag reader ;;
    if negb (size_read =? size) then
      Raise (ValidationException "Table header size mismatch.")
    else Ok ((tables, reader), set_tables self tag (Parsed tables))
  else Ok ((Dict.empty, reader), self).

Definition is_sparse (type : Z) : bool := (type =? 2) || (type =? 4).

(** [read], the inner [while True] over the records of a chunk. *)
Fixpoint read_records (fuel : nat) (tag : string) (type : Z)
    (tables : Tables) (index : Z) (reader : Reader.t) (self : Savegame)
  : result (Reader.t * Savegame) :=
  match fuel with
  | O => OutOfFuel
  | S fuel' =>
      '((outer, _), reader) <- Reader.gamma X reader ;;
      let size := outer - 1 in
      if size <? 0 then Ok (reader, self)
      else
        '((index, size), reader) <-
          (if is_sparse type then
             '((index, index_size), reader) <- Reader.gamma X reader ;;
             Ok ((index, size - index_size), reader)
           else Ok ((index + 1, size), reader)) ;;
        if negb (size =? 0) then
          let (data, reader) := Reader.read size reader in
          self <- read_item tag tables index data self ;;
          read_records fuel' tag type tables index reader self
        else read_records fuel' tag type tables index reader self
  end.

(** [read], the body of the outer loop once the tag is decoded. *)
Definition read_chunk (tag : string) (reader : Reader.t) (self : Savegame)
  : result (Reader.t * Savegame) :=
  '(m, reader) <- Reader.uint8 reader ;;
  let type := Z.land m 15 in
  if type =? 0 then
    '(low, reader) <- Reader.uint24 reader ;;
    let size := Z.lor (Z.shiftl (Z.shiftr m 4) 24) low in
    let (data, reader) := Reader.read size reader in
    if String.eqb tag "SLXI" then
      self <- read_slxi tag data self ;; Ok (reader, self)
    else
      self <- read_item tag Dict.empty (-1) data self ;; Ok (reader, self)
  else if (1 <=? type) && (type <=? 4) then
    '((tables, reader), self) <- read_chunk_tables tag type reader self ;;
    read_records (S (List.length reader)) tag type tables (-1) reader self
  else Raise (ValidationException "Unknown chunk type.").

(** [read], the outer [while True]; the reader and the object at the
    [break]. *)
Fixpoint read_chunks (fuel : nat) (reader : Reader.t) (self : Savegame)
  : result (Reader.t * Savegame) :=
  match fuel with
  | O => OutOfFuel
  | S fuel' =>
      let (tag, reader) := Reader.read 4 reader in
      if (List.length tag =? 0)%nat || bytes_eqb tag [x00; x00; x00; x00]
      then Ok (reader, self)
      else if negb (List.length tag =? 4)%nat then
        Raise (ValidationException "Invalid savegame.")
      else
        tag <- decode tag ;;
        '(reader, self) <- read_chunk tag reader self ;;
        read_chunks fuel' reader self
  end.

(** [read] from the decompressed stream on: the chunk loop, then
    [_check_tail].  A chunk takes its four tag bytes off the stream. *)
Definition read_stream (reader : Reader.t) (self : Savegame)
  : result Savegame :=
  '(reader, self) <- read_chunks (S (List.length reader)) reader self ;;
  _ <- _check_tail reader "file" ;;
  Ok self.

Definition read (fp : list byte) (self : Savegame) : result Savegame :=
  let reader := fp in
  let (compression, reader) := Reader.read 4 reader in
  '(version, reader) <- Reader.uint16 reader ;;
  let self := set_version self version in
  '(_, reader) <- Reader.uint16 reader ;;
  decompressor <-
    option_or (UNCOMPRESS X compression)
      (ValidationException
         ("Unknown savegame compression " ++ bytes_repr compression ++ "."));;
  uncompressed <- lift (decompressor reader) ;;
  read_stream uncompressed self.

End Savegame.

(** ** An instance of the collaborators

    OpenTTD's gamma layout (one to five bytes, the length in the leading
    bits of the first byte), its numbering of the field kinds and the
    matching scalar readers.  It serves to run the decoder on concrete
    streams; the theorems hold for every instance. *)
Module Sample.

Definition gamma_parts (s : list byte) : option (Z * nat) :=
  match s with
  | [] => None
  | b :: r =>
      let v := byte_Z b in
      let extra :=
        if Z.land v 128 =? 0 then Some (v, 0%nat)
        else if Z.land v 192 =? 128 then Some (Z.land v 63, 1%nat)
        else if Z.land v 224 =? 192 then Some (Z.land v 31, 2%nat)
        else if Z.land v 240 =? 224 then Some (Z.land v 15, 3%nat)
        else if Z.land v 248 =? 240 then Some (0, 4%nat)
        else None in
      match extra with
      | Some (hi, n) =>
          if (List.length r <? n)%nat then None
          else
            Some (Z.lor (Z.shiftl hi (8 * Z.of_nat n)) (be_uint (firstn n r)),
                  S n)
      | None => None
      end
  end.

Definition gamma_decode (s : list byte) : outcome (Z * nat) :=
  match gamma_parts s with
  | Some p => inr p
  | None => inl Reader.eof
  end.

Definition read_gamma (data : list byte) : outcome (Z * list byte) :=
  match gamma_parts data with
  | Some (v, n) => inr (v, skipn n data)
  | None => inl StructError
  end.

Definition read_string (data : list byte) : outcome (string * list byte) :=
  match read_gamma data with
  | inr (n, data) =>
      match decode (take n data) with
      | Ok s => inr (s, drop n data)
      | _ => inl UnicodeDecodeError
      end
  | inl e => inl e
  end.

Definition FieldType_of_int (v : Z) : option FieldType :=
  if (0 <=? v) && (v <=? 9) then Some (SCALAR v)
  else if v =? 10 then Some STRING
  else if v =? 11 then Some STRUCT
  else None.

Definition to_signed (width : nat) (v : Z) : Z :=
  let m := Z.shiftl 1 (8 * Z.of_nat width) in
  if v <? Z.shiftr m 1 then v else v - m.

Definition read_int (signed : bool) (width : nat) (data : list byte)
  : outcome (value * list byte) :=
  if (List.length data <? width)%nat then inl StructError
  else
    let v := be_uint (firstn width data) in
    inr (VInt (if signed then to_signed width v else v), skipn width data).

Definition READERS (f : FieldType)
  : option (list byte -> outcome (value * list byte)) :=
  match f with
  | SCALAR 1 => Some (read_int true 1)
  | SCALAR 2 => Some (read_int false 1)
  | SCALAR 3 => Some (read_int true 2)
  | SCALAR 4 => Some (read_int false 2)
  | SCALAR 5 => Some (read_int true 4)
  | SCALAR 6 => Some (read_int false 4)
  | SCALAR 7 => Some (read_int true 8)
  | SCALAR 8 => Some (read_int false 8)
  | SCALAR 9 => Some (read_int false 4)
  | STRING =>
      Some (fun data =>
              match read_string data with
              | inr (s, data) => inr (VStr s, data)
              | inl e => inl e
              end)
  | _ => None
  end.

(** One codec: the magic [OTTN] of uncompressed savegames. *)
Definition UNCOMPRESS (magic : list byte)
  : option (list byte -> outcome (list byte)) :=
  if bytes_eqb magic [x4f; x54; x54; x4e] then Some (fun fp => inr fp)
  else None.

Definition X : External :=
  mkExternal gamma_decode FieldType_of_int 16 READERS read_gamma read_string
    UNCOMPRESS.

End Sample.

(** A savegame with one table chunk [ABCD] (one unsigned byte field [a])
    holding three records, the second of them empty. *)
Definition sample_file : list byte :=
  [x4f; x54; x54; x4e; x00; x01; x00; x00;
   x41; x42; x43; x44; x03;
   x05; x02; x01; x61; x00;
   x02; x07; x01; x02; x09; x00;
   x00; x00; x00; x00].

(** ** Descriptions of the format, to compare the code with *)

(** The test of the [break] of the chunk loop: the tag read gave no byte,
    or four zero bytes. *)
Definition zero_tag : list byte := [x00; x00; x00; x00].

Definition at_end (reader : Reader.t) : bool :=
  (List.length (take 4 reader) =? 0)%nat || bytes_eqb (take 4 reader) zero_tag.

(** The items of an SLXI payload: [n] items one after the other, and the
    bytes after the last one. *)
Fixpoint slxi_parse (X : External) (n : nat) (data : list byte)
  : result (list Item * list byte) :=
  match n with
  | O => Ok ([], data)
  | S n' =>
      '(item, data) <- read_slxi_item X data ;;
      '(its, data) <- slxi_parse X n' data ;;
      Ok (item :: its, data)
  end.

(** Items stored under [tag] at the indices [str idx], [str (idx + 1)],
    and so on. *)
Fixpoint store_items (tag : string) (idx : Z) (its : list Item)
    (self : Savegame) : Savegame :=
  match its with
  | [] => self
  | it :: its' => store_items tag (idx + 1) its' (set_item self tag (str idx) it)
  end.


(** The fields of a table decoded in declaration order, each with
    [read_field] from the front of what the field before it left. *)
Inductive fields_decode (X : External)
    (rec : list byte -> Tables -> string -> result (Item * list byte))
    (tables : Tables) (key : string)
  : Table -> list byte -> list value -> list byte -> Prop :=
| fd_nil : forall data, fields_decode X rec tables key [] data [] data
| fd_cons : forall f fs data v data1 vs rest,
    read_field X rec data tables (field_type f) (field_is_list f)
      (field_name f) key = Ok (v, data1) ->
    fields_decode X rec tables key fs data1 vs rest ->
    fields_decode X rec tables key (f :: fs) data (v :: vs) rest.

(** [result[name] = value] for each pair, in order. *)
Definition set_all (d : Item) (kvs : list (string * value)) : Item :=
  fold_left (fun d kv => Dict.set d (fst kv) (snd kv)) kvs d.

(** How many keys of [tables] are longer than [key]: a bound on how deep
    records nest below [key]. *)
Definition deeper (tables : Tables) (key : string) : nat :=
  List.length
    (filter (fun k => (String.length key <? String.length k)%nat)
       (Dict.keys tables)).

(** The records of a collection chunk as the format lays them out: for
    each record its index, its size once the encoded index is taken off,
    and its payload, up to the record of size [-1]; and the stream after
    it.  Dense chunks count the index up from the one before, sparse
    chunks carry it in a gamma integer. *)
Definition header : Type := (Z * Z * list byte)%type.

Definition header_index (h : header) : Z := fst (fst h).
Definition header_size (h : header) : Z := snd (fst h).
Definition header_data (h : header) : list byte := snd h.

Fixpoint record_headers (X : External) (fuel : nat) (type index : Z)
    (reader : Reader.t) : result (list header * Reader.t) :=
  match fuel with
  | O => OutOfFuel
  | S fuel' =>
      '((outer, _), reader) <- Reader.gamma X reader ;;
      let size := outer - 1 in
      if size <? 0 then Ok ([], reader)
      else
        '((index, size), reader) <-
          (if is_sparse type then
             '((index, index_size), reader) <- Reader.gamma X reader ;;
             Ok ((index, size - index_size), reader)
           else Ok ((index + 1, size), reader)) ;;
        let (data, reader) :=
          if negb (size =? 0) then Reader.read size reader else ([], reader) in
        '(hs, reader) <- record_headers X fuel' type index reader ;;
        Ok ((index, size, data) :: hs, reader)
  end.

(** [read_item] on each record that is not empty, in order. *)
Fixpoint store_records (X : External) (tag : string) (tables : Tables)
    (hs : list header) (self : Savegame) : result Savegame :=
  match hs with
  | [] => Ok self
  | h :: hs' =>
      if negb (header_size h =? 0) then
        self <- read_item X tag tables (header_index h) (header_data h) self ;;
        store_records X tag tables hs' self
      else store_records X tag tables hs' self
  end.

(** A field of an embedded schema with the two numbers its gamma gave:
    the length of its name and the length of the gamma encoding. *)
Definition entry : Type := (Field * (Z * Z))%type.

Definition entry_field (e : entry) : Field := fst e.
Definition entry_key_length (e : entry) : Z := fst (snd e).
Definition entry_index_size (e : entry) : Z := snd (snd e).

(** One for the type byte, the name, the gamma encoding; and one for the
    terminating zero byte. *)
Definition table_size (es : list entry) : Z :=
  fold_right
    (fun e acc => 1 + entry_key_length e + entry_index_size e + acc) 1 es.

(** A well-formed table in the stream: fields, each a type byte that is not
    zero, a gamma-counted name in UTF-8 and a known kind in the low nibble,
    up to a zero byte. *)
Inductive valid_table (X : External)
  : Reader.t -> list entry -> Reader.t -> Prop :=
| vt_end : forall b r,
    int8_of_byte b = 0 ->
    valid_table X (b :: r) [] r
| vt_field : forall b r key_length index_size r1 ft name es r',
    int8_of_byte b <> 0 ->
    Reader.gamma X r = Ok ((key_length, index_size), r1) ->
    FieldType_of_int X (Z.land (int8_of_byte b) 15) = Some ft ->
    decode (take key_length r1) = Ok name ->
    valid_table X (drop key_length r1) es r' ->
    valid_table X (b :: r)
      ((mkField ft
          (negb (Z.land (int8_of_byte b) (FIELD_TYPE_HAS_LENGTH_FIELD X) =? 0))
          name,
        (key_length, index_size)) :: es)
      r'.

(** The tables nested below the fields of the table at [key], in the
    stream from [r]: for each STRUCT field in declaration order its table,
    registered under [key.name], then the tables nested below that one,
    then those of the fields that follow.  [n] is the sum of the sizes. *)
Inductive valid_subtables (X : External)
  : string -> Table -> Reader.t -> Tables -> Z -> Reader.t -> Tables -> Prop :=
| vs_nil : forall key r T,
    valid_subtables X key [] r T 0 r T
| vs_other : forall key f fs r T n r' T',
    is_STRUCT (field_type f) = false ->
    valid_subtables X key fs r T n r' T' ->
    valid_subtables X key (f :: fs) r T n r' T'
| vs_struct : forall key f fs r es r1 T n1 r2 T2 n2 r' T',
    is_STRUCT (field_type f) = true ->
    valid_table X r es r1 ->
    valid_subtables X (key ++ "." ++ field_name f) (map entry_field es) r1
      (Dict.set T (key ++ "." ++ field_name f) (map entry_field es))
      n1 r2 T2 ->
    valid_subtables X key fs r2 T2 n2 r' T' ->
    valid_subtables X key (f :: fs) r T (table_size es + n1 + n2) r' T'.

(** What the decoder relies on from the gamma primitive to come to an end:
    an encoding has at least one byte, all of them in the stream. *)
Definition gamma_reads_bytes (X : External) : Prop :=
  forall s v n,
    gamma_decode X s = inr (v, n) -> (0 < n <= List.length s)%nat.

(** Gamma integers are sizes, counts and indices: not negative. *)
Definition gamma_values_nonneg (X : External) : Prop :=
  forall s v n, gamma_decode X s = inr (v, n) -> 0 <= v.

(** [rec2] returns what [rec1] returns, wherever [rec1] does not run out
    of fuel. *)
Definition extends
    (rec1 rec2 : list byte -> Tables -> string -> result (Item * list byte))
  : Prop :=
  forall d t k, rec1 d t k <> OutOfFuel -> rec2 d t k = rec1 d t k.

(** The exceptions the primitives of the SLXI decoder raise. *)
Definition slxi_primitive_exn (X : External) (e : exn) : Prop :=
  e = StructError \/ e = UnicodeDecodeError
  \/ exists d, read_string X d = inl e.

(** ** Further descriptions *)

(** The tables [tables] has the nested table of every STRUCT field of the
    table at [key]. *)
Definition closed_at (tables : Tables) (key : string) : Prop :=
  forall fields f,
    Dict.get tables key = Some fields ->
    In f fields ->
    is_STRUCT (field_type f) = true ->
    Dict.get tables (key ++ "." ++ field_name f) <> None.

Definition closed (tables : Tables) : Prop :=
  forall key, closed_at tables key.

(** The key of [self.items[tag]] that [read_item] uses for an index. *)
Definition item_key (index : Z) : string :=
  if index =? -1 then "0" else str index.

(** Two objects that differ at most in what they hold for [tag]. *)
Definition touches_only (tag : string) (self self' : Savegame) : Prop :=
  savegame_version self' = savegame_version self
  /\ forall t, t <> tag ->
       Dict.get (tables self') t = Dict.get (tables self) t
       /\ Dict.get (items self') t = Dict.get (items self) t.

(** The records of a sparse chunk as they lie in the stream: the gamma of
    the size, the gamma of the index, and as many bytes as the size less
    one and less the length of the encoded index says, up to a size gamma
    of zero.  Only sizes that are not negative are described. *)
Inductive sparse_records_at (X : External)
  : Reader.t -> list header -> Prop :=
| sr_end : forall reader outer n r1,
    Reader.gamma X reader = Ok ((outer, n), r1) ->
    outer - 1 < 0 ->
    sparse_records_at X reader []
| sr_empty : forall reader outer n r1 i isz r2 hs,
    Reader.gamma X reader = Ok ((outer, n), r1) ->
    0 <= outer - 1 ->
    Reader.gamma X r1 = Ok ((i, isz), r2) ->
    outer - 1 - isz = 0 ->
    sparse_records_at X r2 hs ->
    sparse_records_at X reader ((i, 0, []) :: hs)
| sr_record : forall reader outer n r1 i isz r2 hs,
    Reader.gamma X reader = Ok ((outer, n), r1) ->
    0 <= outer - 1 ->
    Reader.gamma X r1 = Ok ((i, isz), r2) ->
    0 < outer - 1 - isz ->
    sparse_records_at X (drop (outer - 1 - isz) r2) hs ->
    sparse_records_at X reader
      ((i, outer - 1 - isz, take (outer - 1 - isz) r2) :: hs).

(** ** Sample inputs *)

(** A root table with a STRUCT field [s] and a byte field [a], followed by
    the table of [s] with a byte field [b]. *)
Definition nested_schema : list byte :=
  [x0b; x01; x73; x02; x01; x61; x00; x02; x01; x62; x00].

Definition nested_root : list entry :=
  [(mkField STRUCT false "s", (1, 1));
   (mkField (SCALAR 2) false "a", (1, 1))].

Definition nested_sub : list entry :=
  [(mkField (SCALAR 2) false "b", (1, 1))].

Definition nested_tables : Tables :=
  [("root", map entry_field nested_root);
   ("root.s", map entry_field nested_sub)].

(** Tables with a byte, a nested record and a list of 16-bit integers. *)
Definition record_tables : Tables :=
  [("root", [mkField (SCALAR 2) false "a"; mkField STRUCT false "s";
             mkField (SCALAR 4) true "l"]);
   ("root.s", [mkField (SCALAR 2) false "b"])].

Definition record_bytes : list byte := [x01; x02; x02; x00; x03; x00; x04].

Definition record_item : Item :=
  [("a", VInt 1); ("s", VDict [("b", VInt 2)]);
   ("l", VList [VInt 3; VInt 4])].

(** A table that declares the name [a] twice. *)
Definition twice_fields : Table :=
  [mkField (SCALAR 2) false "a"; mkField (SCALAR 2) false "a"].

Definition twice_tables : Tables := [("root", twice_fields)].

(** An SLXI payload: version 0, flags 0, one item with extra data and a
    chunk list, and one byte after it. *)
Definition slxi_payload : list byte :=
  [x00; x00; x00; x00; x00; x00; x00; x00; x00; x00; x00; x01;
   x00; x00; x00; x0c; x00; x01; x02; x61; x62;
   x00; x00; x00; x01; xff;
   x00; x00; x00; x01; x41; x42; x43; x44;
   x09].

Definition slxi_item : Item :=
  [("name", VStr "ab"); ("version", VInt 1);
   ("flags", VList [VStr "extra data present"; VStr "chunk ID list present"]);
   ("extra_data", VList [VInt 255]); ("chunks", VList [VStr "ABCD"])].

(** The records of a sparse chunk, at the indices 5 and 2. *)
Definition sparse_records : list byte :=
  [x03; x05; x07; x03; x02; x09; x00].

(** The records of a dense chunk, the second of them empty. *)
Definition dense_records : list byte :=
  [x02; x07; x01; x02; x09; x00].

(** The bytes of the tag [ABCD]. *)
Definition abcd_tag : list byte := [x41; x42; x43; x44].

(** A chunk of type 0 with a payload of two bytes, and one byte after it. *)
Definition riff_chunk : list byte := [x00; x00; x00; x02; x07; x08; x09].

(** A chunk of type 1 with one record of one byte. *)
Definition schemaless_chunk : list byte := [x01; x02; x07; x00].

(** Tables with one byte field [a]. *)
Definition byte_tables : Tables := [("root", [mkField (SCALAR 2) false "a"])].

(** A chunk of type 3 with these tables and the records of
    [dense_records]. *)
Definition dense_chunk : list byte :=
  [x03; x05; x02; x01; x61; x00; x02; x07; x01; x02; x09; x00].

(** The object after [dense_chunk] under the tag [ABCD]. *)
Definition dense_chunk_result : Savegame :=
  {| savegame_version := None;
     tables := [("ABCD", Parsed byte_tables)];
     items := [("ABCD", [("0", [("a", VInt 7)]); ("2", [("a", VInt 9)])])] |}.

(** The object after the records of [sparse_records] under these tables. *)
Definition sparse_records_result : Savegame :=
  {| savegame_version := None;
     tables := [];
     items := [("ABCD", [("5", [("a", VInt 7)]); ("2", [("a", VInt 9)])])] |}.

(** The object after the records of [dense_records] under these tables. *)
Definition dense_records_result : Savegame :=
  {| savegame_version := None;
     tables := [];
     items := [("ABCD", [("0", [("a", VInt 7)]); ("2", [("a", VInt 9)])])] |}.

(** ** Basic facts *)

(** One step through a hypothesis that a sequence of calls returned: the
    first call that is not yet settled is split into its outcomes. *)
Ltac step_bind_split H :=
  match type of H with
  | context [bind ?m _] =>
      lazymatch m with
      | context [bind _ _] => fail
      | context [if _ then _ else _] => fail
      | context [match _ with _ => _ end] => fail
      | Ok _ => fail
      | _ => destruct m as [? | ? | ] eqn:?; cbn [bind] in H;
             try discriminate
      end
  | context [match ?p with pair _ _ => _ end] => is_var p; destruct p
  | context [if ?c then _ else _] =>
      lazymatch c with
      | context [bind _ _] => fail
      | _ => destruct c eqn:?
      end
  end.

Ltac step_bind H :=
  first [ progress (cbn [bind] in H) | step_bind_split H ].

Lemma bind_Ok {A B : Type} (m : result A) (k : A -> result B) (b : B) :
  bind m k = Ok b -> exists a, m = Ok a /\ k a = Ok b.
Proof.
  destruct m as [a | e | ]; simpl; intros H; try discriminate.
  exists a; split; [reflexivity | exact H].
Qed.

Lemma string_eqb_refl (k : string) : String.eqb k k = true.
Proof. apply String.eqb_eq; reflexivity. Qed.

Lemma to_int_nonnil (z : Z) :
  Z.to_int z <> Decimal.Pos Decimal.Nil
  /\ Z.to_int z <> Decimal.Neg Decimal.Nil.
Proof.
  destruct z; simpl; split; try discriminate; intros H; injection H as H;
    now apply DecimalPos.Unsigned.to_uint_nonnil in H.
Qed.

(** [str] gives different integers different texts. *)
Lemma str_inj (a b : Z) : str a = str b -> a = b.
Proof.
  intros H. apply DecimalZ.to_int_inj.
  destruct (to_int_nonnil a) as [Ha1 Ha2].
  destruct (to_int_nonnil b) as [Hb1 Hb2].
  pose proof (NilZero.isi (Z.to_int a) Ha1 Ha2) as Ha.
  pose proof (NilZero.isi (Z.to_int b) Hb1 Hb2) as Hb.
  unfold str in H. rewrite H in Ha. congruence.
Qed.

Lemma byte_Z_range (b : byte) : 0 <= byte_Z b < 256.
Proof.
  unfold byte_Z. pose proof (Byte.to_N_bounded b). lia.
Qed.

Lemma be_uint_nonneg (bs : list byte) : 0 <= be_uint bs.
Proof.
  unfold be_uint.
  assert (H : forall acc, 0 <= acc ->
            0 <= fold_left (fun a b => Z.lor (Z.shiftl a 8) (byte_Z b)) bs acc).
  { induction bs as [| b bs IH]; cbn [fold_left]; intros acc Hacc;
      [assumption |].
    apply IH. apply Z.lor_nonneg. split.
    - apply Z.shiftl_nonneg; assumption.
    - apply byte_Z_range. }
  apply H. lia.
Qed.

Module DictFacts.

Lemma get_set_same {V : Type} (d : Dict.t V) (k : string) (v : V) :
  Dict.get (Dict.set d k v) k = Some v.
Proof.
  induction d as [| [k' v'] d IH]; simpl.
  - now rewrite string_eqb_refl.
  - destruct (String.eqb k k') eqn:E; simpl; rewrite E; auto.
Qed.

Lemma get_set_other {V : Type} (d : Dict.t V) (k k0 : string) (v : V) :
  k0 <> k -> Dict.get (Dict.set d k v) k0 = Dict.get d k0.
Proof.
  intros Hne. induction d as [| [k' v'] d IH]; simpl.
  - destruct (String.eqb k0 k) eqn:E; auto.
    apply String.eqb_eq in E; contradiction.
  - destruct (String.eqb k k') eqn:E; simpl.
    + apply String.eqb_eq in E; subst k'.
      destruct (String.eqb k0 k) eqn:E0; auto.
      apply String.eqb_eq in E0; contradiction.
    + now rewrite IH.
Qed.

Lemma set_set_same {V : Type} (d : Dict.t V) (k : string) (v1 v2 : V) :
  Dict.set (Dict.set d k v1) k v2 = Dict.set d k v2.
Proof.
  induction d as [| [k' v'] d IH]; simpl.
  - now rewrite string_eqb_refl.
  - destruct (String.eqb k k') eqn:E; simpl; rewrite E; auto.
    now rewrite IH.
Qed.

Lemma get_not_in {V : Type} (d : Dict.t V) (k : string) :
  ~ In k (Dict.keys d) -> Dict.get d k = None.
Proof.
  induction d as [| [k' v'] d IH]; simpl; intros H; auto.
  destruct (String.eqb k k') eqn:E.
  - apply String.eqb_eq in E; subst; tauto.
  - apply IH; tauto.
Qed.

(** Setting a key that is not there appends it. *)
Lemma set_fresh {V : Type} (d : Dict.t V) (k : string) (v : V) :
  ~ In k (Dict.keys d) -> Dict.set d k v = (d ++ [(k, v)])%list.
Proof.
  induction d as [| [k' v'] d IH]; simpl; intros H; auto.
  destruct (String.eqb k k') eqn:E.
  - apply String.eqb_eq in E; subst; tauto.
  - rewrite IH; tauto.
Qed.

(** Setting a key never changes the number of entries by more than the
    new key. *)
Lemma keys_set_present {V : Type} (d : Dict.t V) (k : string) (v : V) :
  In k (Dict.keys d) -> Dict.keys (Dict.set d k v) = Dict.keys d.
Proof.
  induction d as [| [k' v'] d IH]; simpl; intros H; [tauto |].
  destruct (String.eqb k k') eqn:E; simpl; auto.
  f_equal. apply IH. destruct H as [H | H]; auto.
  subst k'. rewrite string_eqb_refl in E; discriminate.
Qed.

End DictFacts.

Section Properties.

Variable X : External.

(** *** The table header of a chunk *)

(** C1.  In a chunk of type 3 or 4 the dispatcher reads the outer size
    [S] with gamma and runs the schema parser; it raises "Table header
    size mismatch." exactly when the parser's byte count differs from
    [S - 1]; when they agree the tables are registered under the tag and
    the dispatcher goes on to the records of the chunk. *)
Theorem table_header_size_check :
  forall (tag : string) (m : Z) (reader0 reader r1 r2 : Reader.t)
         (self : Savegame) (S n size_read : Z) (tbls : Tables),
    Reader.uint8 reader0 = Ok (m, reader) ->
    Z.land m 15 = 3 \/ Z.land m 15 = 4 ->
    Reader.gamma X reader = Ok ((S, n), r1) ->
    read_all_tables X tag r1 = Ok ((tbls, size_read), r2) ->
    let mismatch := ValidationException "Table header size mismatch." in
    let self' := set_tables self tag (Parsed tbls) in
    (read_chunk_tables X tag (Z.land m 15) reader self = Raise mismatch
     <-> size_read <> S - 1)
    /\ (size_read <> S - 1 ->
        read_chunk X tag reader0 self = Raise mismatch)
    /\ (size_read = S - 1 ->
        read_chunk_tables X tag (Z.land m 15) reader self
        = Ok ((tbls, r2), self')
        /\ Dict.get (tables self') tag = Some (Parsed tbls)
        /\ read_chunk X tag reader0 self
           = read_records X (Datatypes.S (List.length r2)) tag
               (Z.land m 15) tbls (-1) r2 self').
Proof.
  intros tag m reader0 reader r1 r2 self S n size_read tbls
         Hm Hty Hg Hall mismatch self'.
  assert (Hct : read_chunk_tables X tag (Z.land m 15) reader self
                = if negb (size_read =? S - 1) then Raise mismatch
                  else Ok ((tbls, r2), self')).
  { unfold read_chunk_tables.
    replace (3 <=? Z.land m 15) with true
      by (destruct Hty as [-> | ->]; reflexivity).
    rewrite Hg; simpl. rewrite Hall; simpl. reflexivity. }
  assert (Hrc : read_chunk X tag reader0 self
                = bind (read_chunk_tables X tag (Z.land m 15) reader self)
                    (fun '((tables, reader), self) =>
                       read_records X (Datatypes.S (List.length reader)) tag
                         (Z.land m 15) tables (-1) reader self)).
  { unfold read_chunk. rewrite Hm; simpl.
    destruct Hty as [-> | ->]; reflexivity. }
  destruct (Z.eqb_spec size_read (S - 1)) as [Heq | Hne]; simpl in Hct.
  - split; [| split].
    + rewrite Hct. split; [discriminate | intros H; contradiction].
    + intros H; contradiction.
    + intros _. split; [exact Hct | split].
      * unfold self'; simpl. apply DictFacts.get_set_same.
      * rewrite Hrc, Hct. reflexivity.
  - split; [| split].
    + rewrite Hct. split; [intros _; exact Hne | reflexivity].
    + intros _. rewrite Hrc, Hct. reflexivity.
    + intros H; contradiction.
Qed.

(** *** Leftover bytes of a record *)

Lemma junk_allowed_spec (tag : string) :
  junk_allowed tag = true <-> tag = "GSDT" \/ tag = "AIPL".
Proof.
  unfold junk_allowed. rewrite orb_true_iff, !String.eqb_eq. tauto.
Qed.

(** C6.  Once a record of a chunk with tables is decoded, [read_item]
    raises "Junk at end of chunk <tag>" exactly when bytes of the record
    are left over and the tag is neither GSDT nor AIPL; with nothing left
    over, or for one of these two tags, it returns with the item
    stored. *)
Theorem read_item_junk_check :
  forall (tag : string) (tbls : Tables) (index : Z) (data rest : list byte)
         (self : Savegame) (item : Item),
    Dict.truthy tbls = true ->
    _read_item X data tbls "root" = Ok (item, rest) ->
    let junk := ValidationException ("Junk at end of chunk " ++ tag) in
    let table_index := if index =? -1 then "0" else str index in
    (junk_allowed tag = true <-> tag = "GSDT" \/ tag = "AIPL")
    /\ (read_item X tag tbls index data self = Raise junk
        <-> rest <> [] /\ junk_allowed tag = false)
    /\ (rest = [] \/ junk_allowed tag = true ->
        read_item X tag tbls index data self
        = Ok (set_item self tag table_index item)).
Proof.
  intros tag tbls index data rest self item Htr Hdec junk table_index.
  split; [apply junk_allowed_spec |].
  unfold read_item. rewrite Htr, Hdec; simpl.
  fold table_index. fold junk.
  destruct (junk_allowed tag); simpl.
  - split.
    + split; [discriminate | intros [_ H]; discriminate].
    + reflexivity.
  - destruct rest as [| b rest]; simpl.
    + split.
      * split; [discriminate | intros [H _]; contradiction].
      * reflexivity.
    + split.
      * split; [intros _; split; [discriminate | reflexivity] | reflexivity].
      * intros [H | H]; discriminate.
Qed.

(** *** Singleton chunks *)

Lemma read_item_no_tables (tag : string) (index : Z) (data : list byte)
    (self : Savegame) :
  read_item X tag Dict.empty index data self
  = Ok (set_tables self tag (Marked "unsupported")).
Proof. reflexivity. Qed.

(** Whatever a chunk of type 0 with another tag than SLXI holds, it
    changes nothing but the mark of its tag. *)
Lemma singleton_chunk_result (tag : string) (m : Z)
    (reader0 reader reader' : Reader.t) (self self' : Savegame) :
  Reader.uint8 reader0 = Ok (m, reader) ->
  Z.land m 15 = 0 ->
  tag <> "SLXI" ->
  read_chunk X tag reader0 self = Ok (reader', self') ->
  self' = set_tables self tag (Marked "unsupported").
Proof.
  intros Hm Hty Htag. unfold read_chunk. rewrite Hm; simpl.
  rewrite Hty; simpl.
  destruct (Reader.uint24 reader) as [[low r1] | e | ]; simpl;
    try discriminate.
  destruct (String.eqb tag "SLXI") eqn:E.
  - apply String.eqb_eq in E; contradiction.
  - simpl. intros H; inversion H; reflexivity.
Qed.

(** C9, as the code has it.  A chunk of type 0 whose tag is not SLXI is
    handed to [read_item] with no tables: the tag is marked unsupported
    in [tables] and [items] is left as it was, whatever the payload. *)
Theorem singleton_chunk_unsupported :
  forall (tag : string) (m low : Z) (reader0 reader r1 : Reader.t)
         (self : Savegame),
    Reader.uint8 reader0 = Ok (m, reader) ->
    Z.land m 15 = 0 ->
    Reader.uint24 reader = Ok (low, r1) ->
    tag <> "SLXI" ->
    let size := Z.lor (Z.shiftl (Z.shiftr m 4) 24) low in
    let self' := set_tables self tag (Marked "unsupported") in
    read_chunk X tag reader0 self = Ok (drop size r1, self')
    /\ items self' = items self
    /\ Dict.get (tables self') tag = Some (Marked "unsupported").
Proof.
  intros tag m low reader0 reader r1 self Hm Hty Hlow Htag size self'.
  split; [| split].
  - unfold read_chunk. rewrite Hm; simpl. rewrite Hty; simpl.
    rewrite Hlow; simpl.
    destruct (String.eqb tag "SLXI") eqn:E.
    + apply String.eqb_eq in E; contradiction.
    + reflexivity.
  - reflexivity.
  - apply DictFacts.get_set_same.
Qed.

(** *** The end of the chunk stream *)

Lemma at_end_spec (reader : Reader.t) :
  at_end reader = true <-> reader = [] \/ take 4 reader = zero_tag.
Proof.
  unfold at_end, bytes_eqb. rewrite orb_true_iff. split.
  - intros [H | H].
    + left. destruct reader; [reflexivity | discriminate].
    + right. destruct (list_eq_dec _ _ _); [assumption | discriminate].
  - intros [H | H].
    + left. subst; reflexivity.
    + right. destruct (list_eq_dec _ _ _); [reflexivity | contradiction].
Qed.

Lemma check_tail_spec (reader : Reader.t) (item : string) :
  (reader = [] -> _check_tail reader item = Ok tt)
  /\ (reader <> [] ->
      _check_tail reader item
      = Raise (ValidationException ("Junk at the end of " ++ item ++ "."))).
Proof.
  split; intros H.
  - subst; reflexivity.
  - destruct reader; [contradiction | reflexivity].
Qed.

(** C7.  The chunk loop leaves through its [break] exactly when the tag
    read gives no byte or four zero bytes: at such a tag it stops, at any
    other tag the iteration raises or goes on to the next one.  After the
    loop the decode succeeds when the stream has no byte left and fails
    with "Junk at the end of file." when it has one; [read] is this decode
    of the decompressed stream. *)
Theorem chunk_loop_end :
  forall (fuel : nat) (reader : Reader.t) (self : Savegame),
    (at_end reader = true <-> reader = [] \/ take 4 reader = zero_tag)
    /\ (at_end reader = true ->
        read_chunks X (S fuel) reader self = Ok (drop 4 reader, self))
    /\ (at_end reader = false ->
        read_chunks X (S fuel) reader self
        = if negb (List.length (take 4 reader) =? 4)%nat
          then Raise (ValidationException "Invalid savegame.")
          else
            tag <- decode (take 4 reader) ;;
            '(reader', self') <- read_chunk X tag (drop 4 reader) self ;;
            read_chunks X fuel reader' self')
    /\ (forall (rest : Reader.t) (self' : Savegame),
           read_chunks X (S (List.length reader)) reader self
           = Ok (rest, self') ->
           (rest = [] -> read_stream X reader self = Ok self')
           /\ (rest <> [] ->
               read_stream X reader self
               = Raise (ValidationException "Junk at the end of file.")))
    /\ (forall (fp r1 r2 : list byte) (v w : Z)
               (decompressor : list byte -> outcome (list byte)),
           Reader.uint16 (drop 4 fp) = Ok (v, r1) ->
           Reader.uint16 r1 = Ok (w, r2) ->
           UNCOMPRESS X (take 4 fp) = Some decompressor ->
           decompressor r2 = inr reader ->
           read X fp self = read_stream X reader (set_version self v)).
Proof.
  intros fuel reader self.
  split; [apply at_end_spec |].
  split; [| split; [| split]];
    [| | | intros fp r1 r2 v w dec Hv Hw Hu Hd; unfold read, Reader.read;
           rewrite Hv; cbn [bind]; rewrite Hw; cbn [bind];
           rewrite Hu; cbn [bind option_or]; rewrite Hd; reflexivity].
  - intros H. simpl. unfold at_end in H. fold zero_tag.
    now rewrite H.
  - intros H. simpl. unfold at_end in H. fold zero_tag.
    now rewrite H.
  - intros rest self' H. unfold read_stream. rewrite H.
    cbn [bind].
    destruct (check_tail_spec rest "file") as [H1 H2].
    split; intros Hr.
    + now rewrite (H1 Hr).
    + now rewrite (H2 Hr).
Qed.

(** *** The SLXI chunk *)

Lemma read_slxi_items_parse (n : nat) :
  forall (idx : Z) (tag : string) (data : list byte) (self : Savegame),
    read_slxi_items X n idx tag data self
    = ('(its, rest) <- slxi_parse X n data ;;
       Ok (store_items tag idx its self, rest)).
Proof.
  induction n as [| n IH]; intros idx tag data self; simpl.
  - reflexivity.
  - destruct (read_slxi_item X data) as [[item data1] | e | ]; simpl; auto.
    rewrite IH.
    destruct (slxi_parse X n data1) as [[its rest] | e | ]; reflexivity.
Qed.

Lemma slxi_parse_length (n : nat) :
  forall (data rest : list byte) (its : list Item),
    slxi_parse X n data = Ok (its, rest) -> List.length its = n.
Proof.
  induction n as [| n IH]; simpl; intros data rest its H.
  - now inversion H.
  - destruct (read_slxi_item X data) as [[item data1] | e | ];
      simpl in H; try discriminate.
    destruct (slxi_parse X n data1) as [[its1 rest1] | e | ] eqn:E;
      simpl in H; try discriminate.
    inversion H; subst. simpl. f_equal. eapply IH; eauto.
Qed.

Lemma store_items_tables (tag : string) (its : list Item) :
  forall (idx : Z) (self : Savegame),
    tables (store_items tag idx its self) = tables self.
Proof.
  induction its as [| it its IH]; intros idx self; simpl; auto.
  now rewrite IH.
Qed.

Lemma items_set_item_same (self : Savegame) (tag index : string)
    (item : Item) :
  Dict.get_default (items (set_item self tag index item)) tag
  = Dict.set (Dict.get_default (items self) tag) index item.
Proof.
  unfold Dict.get_default at 1; simpl.
  now rewrite DictFacts.get_set_same.
Qed.

(** Later stores go to later indices and leave an index alone. *)
Lemma store_items_keep (tag : string) (its : list Item) :
  forall (idx j : Z) (self : Savegame),
    j < idx ->
    Dict.get (Dict.get_default (items (store_items tag idx its self)) tag)
      (str j)
    = Dict.get (Dict.get_default (items self) tag) (str j).
Proof.
  induction its as [| it its IH]; intros idx j self Hj; simpl; auto.
  rewrite IH by lia. rewrite items_set_item_same.
  apply DictFacts.get_set_other.
  intros E. apply str_inj in E. lia.
Qed.

Lemma store_items_get (tag : string) (its : list Item) :
  forall (idx : Z) (self : Savegame) (i : nat),
    (i < List.length its)%nat ->
    Dict.get (Dict.get_default (items (store_items tag idx its self)) tag)
      (str (idx + Z.of_nat i))
    = nth_error its i.
Proof.
  induction its as [| it its IH]; intros idx self i Hi; simpl in *.
  - lia.
  - destruct i as [| i]; simpl.
    + rewrite Z.add_0_r, store_items_keep by lia.
      rewrite items_set_item_same. apply DictFacts.get_set_same.
    + replace (idx + Z.pos (Pos.of_succ_nat i))
        with (idx + 1 + Z.of_nat i) by lia.
      apply IH. lia.
Qed.

Lemma set_tables_twice (self : Savegame) (tag : string) (a b : TableSet) :
  set_tables (set_tables self tag a) tag b = set_tables self tag b.
Proof.
  unfold set_tables; simpl. now rewrite DictFacts.set_set_same.
Qed.

Lemma read_uint_nonneg (width : nat) (data rest : list byte) (v : Z) :
  read_uint width data = Ok (v, rest) -> 0 <= v.
Proof.
  unfold read_uint. destruct (_ <? _)%nat; intros H; inversion H.
  apply be_uint_nonneg.
Qed.

(** C8.  A payload whose version word, or whose flags word, is not zero
    leaves the chunk marked unsupported and stores no item, whatever
    follows.  With both words zero the item count is read and that many
    items are parsed, the item at position [i] being stored at index
    [str i]. *)
Theorem slxi_version_flags_gate :
  forall (tag : string) (data : list byte) (self : Savegame),
    let placeholder := set_tables self tag (Marked "unsupported") in
    items placeholder = items self
    /\ Dict.get (tables placeholder) tag = Some (Marked "unsupported")
    /\ (forall v d1,
           read_uint32 data = Ok (v, d1) -> v <> 0 ->
           read_slxi X tag data self = Ok placeholder)
    /\ (forall v d1 f d2,
           read_uint32 data = Ok (v, d1) ->
           read_uint32 d1 = Ok (f, d2) -> f <> 0 ->
           read_slxi X tag data self = Ok placeholder)
    /\ (forall d1 d2 count d3,
           read_uint32 data = Ok (0, d1) ->
           read_uint32 d1 = Ok (0, d2) ->
           read_uint32 d2 = Ok (count, d3) ->
           read_slxi X tag data self
           = ('(its, _) <- slxi_parse X (Z.to_nat count) d3 ;;
              Ok (store_items tag 0 its
                    (set_tables self tag (Marked "slxi"))))
           /\ forall its rest,
               slxi_parse X (Z.to_nat count) d3 = Ok (its, rest) ->
               Z.of_nat (List.length its) = count
               /\ forall i : nat,
                   (i < List.length its)%nat ->
                   Dict.get
                     (Dict.get_default
                        (items (store_items tag 0 its
                                  (set_tables self tag (Marked "slxi"))))
                        tag)
                     (str (Z.of_nat i))
                   = nth_error its i).
Proof.
  intros tag data self placeholder.
  split; [reflexivity |].
  split; [apply DictFacts.get_set_same |].
  split; [| split].
  - intros v d1 Hv Hne. unfold read_slxi. rewrite Hv; simpl.
    apply read_uint_nonneg in Hv.
    destruct (Z.gtb_spec v 0); [reflexivity | lia].
  - intros v d1 f d2 Hv Hf Hne. unfold read_slxi. rewrite Hv; simpl.
    destruct (v >? 0); [reflexivity |].
    rewrite Hf; simpl.
    destruct (Z.eqb_spec f 0); [contradiction | reflexivity].
  - intros d1 d2 count d3 Hv Hf Hc. split.
    + unfold read_slxi. rewrite Hv; simpl. rewrite Hf; simpl.
      rewrite Hc; simpl. rewrite read_slxi_items_parse, set_tables_twice.
      destruct (slxi_parse X (Z.to_nat count) d3) as [[its rest] | e | ];
        reflexivity.
    + intros its rest Hp.
      pose proof (slxi_parse_length _ _ _ _ Hp) as Hlen.
      apply read_uint_nonneg in Hc.
      split; [lia |].
      intros i Hi. apply (store_items_get tag its 0 _ i Hi).
Qed.

Lemma read_uint_exn (width : nat) (data : list byte) (e : exn) :
  read_uint width data = Raise e -> e = StructError.
Proof.
  unfold read_uint. destruct (_ <? _)%nat; intros H; inversion H; auto.
Qed.

Lemma decode_exn (bs : list byte) (e : exn) :
  decode bs = Raise e -> e = UnicodeDecodeError.
Proof.
  unfold decode. destruct (utf8_valid bs); intros H; inversion H; auto.
Qed.

Lemma read_slxi_chunks_exn (n : nat) :
  forall (data : list byte) (e : exn),
    read_slxi_chunks n data = Raise e -> e = UnicodeDecodeError.
Proof.
  induction n as [| n IH]; simpl; intros data e H; [discriminate |].
  destruct (decode (take 4 data)) as [name | e' | ] eqn:E; simpl in H.
  - destruct (read_slxi_chunks n (drop 4 data)) as [[c d] | e' | ] eqn:E';
      simpl in H; try discriminate.
    inversion H; subst. eapply IH; eauto.
  - inversion H; subst. eapply decode_exn; eauto.
  - discriminate.
Qed.

Lemma read_slxi_item_exn (data : list byte) (e : exn) :
  read_slxi_item X data = Raise e -> slxi_primitive_exn X e.
Proof.
  unfold read_slxi_item, read_uint32, read_uint16, slxi_primitive_exn.
  intros H.
  destruct (read_uint 4 data) as [[flags d1] | e' | ] eqn:E1; simpl in H;
    [| inversion H; subst; left; eapply read_uint_exn; eauto | discriminate].
  destruct (read_uint 2 d1) as [[version d2] | e' | ] eqn:E2; simpl in H;
    [| inversion H; subst; left; eapply read_uint_exn; eauto | discriminate].
  destruct (read_string X d2) as [e' | [name d3]] eqn:E3; simpl in H;
    [inversion H; subst; right; right; eauto |].
  destruct (negb (Z.land flags 4 =? 0)); simpl in H.
  - destruct (read_uint 4 d3) as [[size d4] | e' | ] eqn:E4; simpl in H;
      [| inversion H; subst; left; eapply read_uint_exn; eauto
       | discriminate].
    destruct (String.eqb name "version_label"); simpl in H.
    + destruct (decode (take size d4)) as [text | e' | ] eqn:E5; simpl in H;
        [| inversion H; subst; right; left; eapply decode_exn; eauto
         | discriminate].
      destruct (negb (Z.land flags 8 =? 0)); simpl in H; [| discriminate].
      destruct (read_uint 4 (drop size d4)) as [[cnt d5] | e' | ] eqn:E6;
        simpl in H;
        [| inversion H; subst; left; eapply read_uint_exn; eauto
         | discriminate].
      destruct (read_slxi_chunks (Z.to_nat cnt) d5) as [[c d6] | e' | ]
        eqn:E7; simpl in H; try discriminate.
      inversion H; subst; right; left; eapply read_slxi_chunks_exn; eauto.
    + destruct (negb (Z.land flags 8 =? 0)); simpl in H; [| discriminate].
      destruct (read_uint 4 (drop size d4)) as [[cnt d5] | e' | ] eqn:E6;
        simpl in H;
        [| inversion H; subst; left; eapply read_uint_exn; eauto
         | discriminate].
      destruct (read_slxi_chunks (Z.to_nat cnt) d5) as [[c d6] | e' | ]
        eqn:E7; simpl in H; try discriminate.
      inversion H; subst; right; left; eapply read_slxi_chunks_exn; eauto.
  - destruct (negb (Z.land flags 8 =? 0)); simpl in H; [| discriminate].
    destruct (read_uint 4 d3) as [[cnt d5] | e' | ] eqn:E6;
      simpl in H;
      [| inversion H; subst; left; eapply read_uint_exn; eauto
       | discriminate].
    destruct (read_slxi_chunks (Z.to_nat cnt) d5) as [[c d6] | e' | ]
      eqn:E7; simpl in H; try discriminate.
    inversion H; subst; right; left; eapply read_slxi_chunks_exn; eauto.
Qed.

Lemma slxi_parse_exn (n : nat) :
  forall (data : list byte) (e : exn),
    slxi_parse X n data = Raise e -> slxi_primitive_exn X e.
Proof.
  induction n as [| n IH]; simpl; intros data e H; [discriminate |].
  destruct (read_slxi_item X data) as [[item d1] | e' | ] eqn:E;
    simpl in H; try discriminate.
  - destruct (slxi_parse X n d1) as [[its d2] | e' | ] eqn:E';
      simpl in H; try discriminate.
    inversion H; subst. eapply IH; eauto.
  - inversion H; subst. eapply read_slxi_item_exn; eauto.
Qed.

(** C10.  With version and flags zero, [read_slxi] parses the counted
    items and returns; the bytes [rest] after the last item play no part
    in the outcome.  Whatever the payload, an exception of [read_slxi] is
    one its primitive readers raised: it has no trailing-data failure of
    its own, where [read_item] raises one for bytes left over after a
    record. *)
Theorem slxi_leftover_ignored :
  forall (tag : string) (data d1 d2 d3 rest : list byte) (count : Z)
         (its : list Item) (self : Savegame),
    read_uint32 data = Ok (0, d1) ->
    read_uint32 d1 = Ok (0, d2) ->
    read_uint32 d2 = Ok (count, d3) ->
    slxi_parse X (Z.to_nat count) d3 = Ok (its, rest) ->
    List.length its = Z.to_nat count
    /\ read_slxi X tag data self
       = Ok (store_items tag 0 its (set_tables self tag (Marked "slxi")))
    /\ (forall (tag' : string) (data' : list byte) (self' : Savegame)
               (e : exn),
           read_slxi X tag' data' self' = Raise e -> slxi_primitive_exn X e)
    /\ (forall (tbls : Tables) (index : Z) (record left : list byte)
               (item : Item),
           Dict.truthy tbls = true ->
           _read_item X record tbls "root" = Ok (item, left) ->
           left <> [] ->
           junk_allowed tag = false ->
           read_item X tag tbls index record self
           = Raise (ValidationException ("Junk at end of chunk " ++ tag))).
Proof.
  intros tag data d1 d2 d3 rest count its self Hv Hf Hc Hp.
  split; [eapply slxi_parse_length; eauto |].
  split; [| split];
    [| | intros tbls index record left item Ht Hd Hl Hj; unfold read_item;
         rewrite Ht, Hd; cbn [bind]; rewrite Hj;
         destruct left; [contradiction | reflexivity]].
  - unfold read_slxi. rewrite Hv; simpl. rewrite Hf; simpl.
    rewrite Hc; simpl.
    rewrite read_slxi_items_parse, set_tables_twice, Hp. reflexivity.
  - clear. intros tag data self e H. unfold read_slxi, read_uint32 in H.
    destruct (read_uint 4 data) as [[v d1] | e' | ] eqn:E1; simpl in H;
      [| inversion H; subst; left; eapply read_uint_exn; eauto
       | discriminate].
    destruct (v >? 0); [discriminate |].
    destruct (read_uint 4 d1) as [[f d2] | e' | ] eqn:E2; simpl in H;
      [| inversion H; subst; left; eapply read_uint_exn; eauto
       | discriminate].
    destruct (negb (f =? 0)); [discriminate |].
    destruct (read_uint 4 d2) as [[c d3] | e' | ] eqn:E3; simpl in H;
      [| inversion H; subst; left; eapply read_uint_exn; eauto
       | discriminate].
    rewrite read_slxi_items_parse in H.
    destruct (slxi_parse X (Z.to_nat c) d3) as [[its rest] | e' | ] eqn:E4;
      simpl in H; try discriminate.
    inversion H; subst. eapply slxi_parse_exn; eauto.
Qed.

(** *** Record decoder: fuel *)

Lemma read_field_single_extends rec1 rec2 data tbls field name key :
  extends rec1 rec2 ->
  read_field_single X rec1 data tbls field name key <> OutOfFuel ->
  read_field_single X rec2 data tbls field name key
  = read_field_single X rec1 data tbls field name key.
Proof.
  intros Hext. unfold read_field_single.
  destruct (is_STRUCT field); [| reflexivity].
  intros H.
  rewrite Hext; [reflexivity |].
  intros E. rewrite E in H. apply H; reflexivity.
Qed.

Lemma read_list_extends (f1 f2 : list byte -> result (value * list byte))
    (n : nat) :
  (forall d, f1 d <> OutOfFuel -> f2 d = f1 d) ->
  forall data,
    read_list n f1 data <> OutOfFuel ->
    read_list n f2 data = read_list n f1 data.
Proof.
  intros Hf. induction n as [| n IH]; simpl; intros data H; auto.
  assert (H1 : f1 data <> OutOfFuel).
  { intros E; rewrite E in H; apply H; reflexivity. }
  rewrite (Hf _ H1).
  destruct (f1 data) as [[v d1] | e | ]; simpl in *; auto.
  rewrite IH; [reflexivity |].
  intros E; rewrite E in H; apply H; reflexivity.
Qed.

Lemma read_field_extends rec1 rec2 data tbls field is_list name key :
  extends rec1 rec2 ->
  read_field X rec1 data tbls field is_list name key <> OutOfFuel ->
  read_field X rec2 data tbls field is_list name key
  = read_field X rec1 data tbls field is_list name key.
Proof.
  intros Hext. unfold read_field.
  destruct (is_list && negb (is_STRING field)).
  - destruct (lift (read_gamma X data)) as [[len d1] | e | ]; simpl; auto.
    intros H.
    rewrite (read_list_extends
               (fun d => read_field_single X rec1 d tbls field name key)
               (fun d => read_field_single X rec2 d tbls field name key)).
    + reflexivity.
    + intros d Hd. now apply read_field_single_extends.
    + intros E; rewrite E in H; apply H; reflexivity.
  - now apply read_field_single_extends.
Qed.

Lemma _read_item_loop_extends rec1 rec2 fields :
  extends rec1 rec2 ->
  forall data tbls key acc,
    _read_item_loop X rec1 fields data tbls key acc <> OutOfFuel ->
    _read_item_loop X rec2 fields data tbls key acc
    = _read_item_loop X rec1 fields data tbls key acc.
Proof.
  intros Hext.
  induction fields as [| f fs IH]; simpl; intros data tbls key acc H; auto.
  assert (H1 : read_field X rec1 data tbls (field_type f) (field_is_list f)
                 (field_name f) key <> OutOfFuel).
  { intros E; rewrite E in H; apply H; reflexivity. }
  rewrite (read_field_extends _ _ _ _ _ _ _ _ Hext H1).
  destruct (read_field X rec1 data tbls (field_type f) (field_is_list f)
              (field_name f) key) as [[v d1] | e | ]; simpl in *; auto.
Qed.

(** More fuel does not change an outcome. *)
Lemma _read_item_fuel_mono (n : nat) :
  forall m, (n <= m)%nat -> extends (_read_item_fuel X n) (_read_item_fuel X m).
Proof.
  induction n as [| n IH]; intros m Hle d t k H.
  - simpl in H. destruct (Dict.get t k) eqn:E; simpl in H.
    + exfalso; apply H; reflexivity.
    + destruct m; simpl; rewrite E; reflexivity.
  - destruct m as [| m]; [lia |].
    simpl in *. destruct (Dict.get t k) as [fields |]; simpl in *; auto.
    apply _read_item_loop_extends; auto.
    apply IH; lia.
Qed.

Lemma filter_length_lt {A : Type} (p q : A -> bool) (l : list A) (x : A) :
  (forall a, p a = true -> q a = true) ->
  In x l -> q x = true -> p x = false ->
  (List.length (filter p l) < List.length (filter q l))%nat.
Proof.
  intros Hpq Hin Hq Hp.
  assert (Hle : forall l', (List.length (filter p l')
                            <= List.length (filter q l'))%nat).
  { induction l' as [| a l' IH']; simpl; [lia |].
    destruct (p a) eqn:Ea.
    - rewrite (Hpq _ Ea); simpl; lia.
    - destruct (q a); simpl; lia. }
  induction l as [| a l IH]; simpl in *; [contradiction |].
  destruct Hin as [-> | Hin].
  - rewrite Hp, Hq; simpl. specialize (Hle l). lia.
  - specialize (IH Hin). destruct (p a) eqn:Ea.
    + rewrite (Hpq _ Ea); simpl; lia.
    + destruct (q a); simpl; lia.
Qed.

Lemma get_Some_in {V : Type} (d : Dict.t V) (k : string) (v : V) :
  Dict.get d k = Some v -> In k (Dict.keys d).
Proof.
  induction d as [| [k' v'] d IH]; simpl; [discriminate |].
  destruct (String.eqb k k') eqn:E.
  - apply String.eqb_eq in E; auto.
  - auto.
Qed.

Lemma string_length_app (a b : string) :
  String.length (a ++ b) = (String.length a + String.length b)%nat.
Proof. induction a; simpl; auto. Qed.

Lemma deeper_nested (tbls : Tables) (key name : string) (fields : Table) :
  Dict.get tbls (key ++ "." ++ name) = Some fields ->
  (deeper tbls (key ++ "." ++ name) < deeper tbls key)%nat.
Proof.
  intros H. unfold deeper.
  apply filter_length_lt with (x := key ++ "." ++ name).
  - intros a Ha. apply Nat.ltb_lt in Ha. apply Nat.ltb_lt.
    rewrite string_length_app in Ha. lia.
  - eapply get_Some_in; eauto.
  - apply Nat.ltb_lt. rewrite string_length_app; simpl. lia.
  - apply Nat.ltb_ge. lia.
Qed.

Lemma read_field_single_fuel rec data tbls field name key :
  rec data tbls (key ++ "." ++ name) <> OutOfFuel ->
  read_field_single X rec data tbls field name key <> OutOfFuel.
Proof.
  intros H. unfold read_field_single.
  destruct (is_STRUCT field).
  - destruct (rec data tbls (key ++ "." ++ name)) as [[r d] | e | ];
      simpl; congruence.
  - destruct (READERS X field) as [rd |]; simpl; [| discriminate].
    destruct (rd data); simpl; discriminate.
Qed.

Lemma read_list_fuel (f : list byte -> result (value * list byte)) (n : nat) :
  (forall d, f d <> OutOfFuel) ->
  forall data, read_list n f data <> OutOfFuel.
Proof.
  intros Hf. induction n as [| n IH]; simpl; intros data; [discriminate |].
  specialize (Hf data).
  destruct (f data) as [[v d1] | e | ]; simpl; try congruence.
  specialize (IH d1).
  destruct (read_list n f d1) as [[vs d2] | e | ]; simpl; congruence.
Qed.

Lemma read_field_fuel rec data tbls field is_list name key :
  (forall d, rec d tbls (key ++ "." ++ name) <> OutOfFuel) ->
  read_field X rec data tbls field is_list name key <> OutOfFuel.
Proof.
  intros H. unfold read_field.
  destruct (is_list && negb (is_STRING field)).
  - destruct (read_gamma X data) as [e | [len d1]]; simpl; [discriminate |].
    pose proof (read_list_fuel
                  (fun d => read_field_single X rec d tbls field name key)
                  (Z.to_nat len)
                  (fun d => read_field_single_fuel rec d tbls field name key
                              (H d)) d1) as Hl.
    destruct (read_list _ _ d1) as [[vs d2] | e | ]; simpl; congruence.
  - apply read_field_single_fuel, H.
Qed.

Lemma _read_item_loop_fuel rec fields tbls key :
  (forall d name, rec d tbls (key ++ "." ++ name) <> OutOfFuel) ->
  forall data acc, _read_item_loop X rec fields data tbls key acc <> OutOfFuel.
Proof.
  intros H. induction fields as [| f fs IH]; simpl; intros data acc;
    [discriminate |].
  pose proof (read_field_fuel rec data tbls (field_type f) (field_is_list f)
                (field_name f) key (fun d => H d (field_name f))) as Hf.
  destruct (read_field _ _ _ _ _ _ _ _) as [[v d1] | e | ]; simpl;
    first [apply IH | congruence].
Qed.

Lemma _read_item_fuel_missing (n : nat) data tbls key :
  Dict.get tbls key = None ->
  _read_item_fuel X n data tbls key = Raise KeyError.
Proof. intros H. destruct n; simpl; rewrite H; reflexivity. Qed.

(** Fuel beyond the number of longer keys is enough. *)
Lemma _read_item_fuel_enough (n : nat) :
  forall data tbls key,
    (deeper tbls key < n)%nat ->
    _read_item_fuel X n data tbls key <> OutOfFuel.
Proof.
  induction n as [| n IH]; intros data tbls key Hn; [lia |].
  simpl. destruct (Dict.get tbls key) as [fields |] eqn:Hk; simpl;
    [| discriminate].
  apply _read_item_loop_fuel.
  intros d name.
  destruct (Dict.get tbls (key ++ "." ++ name)) as [fs |] eqn:Hsub.
  - apply IH. pose proof (deeper_nested _ _ _ _ Hsub). lia.
  - rewrite _read_item_fuel_missing by assumption. discriminate.
Qed.

Lemma deeper_le (tbls : Tables) (key : string) :
  (deeper tbls key <= List.length tbls)%nat.
Proof.
  unfold deeper, Dict.keys.
  etransitivity; [apply filter_length_le |]. now rewrite length_map.
Qed.

(** [_read_item] returns or raises: its fuel never runs out. *)
Lemma _read_item_total (data : list byte) (tbls : Tables) (key : string) :
  _read_item X data tbls key <> OutOfFuel.
Proof.
  apply _read_item_fuel_enough. pose proof (deeper_le tbls key). lia.
Qed.

(** A nested record is decoded by [_read_item] itself. *)
Lemma _read_item_unfold (data : list byte) (tbls : Tables) (key : string) :
  _read_item X data tbls key
  = (fields <- option_or (Dict.get tbls key) KeyError ;;
     _read_item_loop X (_read_item X) fields data tbls key Dict.empty).
Proof.
  unfold _read_item at 1. simpl.
  destruct (Dict.get tbls key) as [fields |] eqn:Hk; simpl; auto.
  symmetry. apply _read_item_loop_extends.
  - intros d t k H. unfold _read_item.
    destruct (Nat.le_gt_cases (List.length tbls) (S (List.length t))).
    + apply _read_item_fuel_mono; auto.
    + symmetry. apply _read_item_fuel_mono; [lia |].
      apply _read_item_fuel_enough. pose proof (deeper_le t k). lia.
  - apply _read_item_loop_fuel. intros d name.
    destruct (Dict.get tbls (key ++ "." ++ name)) as [fs |] eqn:Hsub.
    + apply _read_item_fuel_enough.
      pose proof (deeper_nested _ _ _ _ Hsub).
      pose proof (deeper_le tbls key). lia.
    + rewrite _read_item_fuel_missing by assumption. discriminate.
Qed.

(** *** Record decoder: fields and lists *)


Lemma fields_decode_length rec tbls key fields :
  forall data vs rest,
    fields_decode X rec tbls key fields data vs rest ->
    List.length vs = List.length fields.
Proof.
  induction fields as [| f fs IH]; intros data vs rest H;
    inversion H; subst; simpl; auto.
  f_equal; eauto.
Qed.

Lemma _read_item_loop_spec rec fields :
  forall data tbls key acc item rest,
    _read_item_loop X rec fields data tbls key acc = Ok (item, rest)
    <-> exists vs,
        fields_decode X rec tbls key fields data vs rest
        /\ item = set_all acc (combine (map field_name fields) vs).
Proof.
  induction fields as [| f fs IH]; simpl; intros data tbls key acc item rest.
  - split.
    + intros H; inversion H; subst. exists []. split; [constructor | auto].
    + intros [vs [Hd Hi]]. inversion Hd; subst. reflexivity.
  - split.
    + intros H.
      destruct (read_field X rec data tbls (field_type f) (field_is_list f)
                  (field_name f) key) as [[v d1] | e | ] eqn:E;
        simpl in H; try discriminate.
      apply IH in H. destruct H as [vs [Hd Hi]].
      exists (v :: vs). split; [econstructor; eauto | exact Hi].
    + intros [vs [Hd Hi]].
      inversion Hd as [| f0 fs0 d0 v data1 vs0 r0 Hone Hrest]; subst.
      rewrite Hone; simpl.
      apply IH. exists vs0. split; auto.
Qed.

Lemma keys_app {V : Type} (a b : Dict.t V) :
  Dict.keys (a ++ b)%list = (Dict.keys a ++ Dict.keys b)%list.
Proof. apply map_app. Qed.

(** Setting names that are new and pairwise different appends them in
    order. *)
Lemma set_all_fresh (names : list string) :
  forall (vs : list value) (acc : Item),
    NoDup names ->
    (forall n, In n names -> ~ In n (Dict.keys acc)) ->
    set_all acc (combine names vs) = (acc ++ combine names vs)%list.
Proof.
  unfold set_all.
  induction names as [| n names IH]; intros vs acc Hnd Hfresh; simpl.
  - now rewrite app_nil_r.
  - destruct vs as [| v vs]; simpl; [now rewrite app_nil_r |].
    inversion Hnd; subst.
    rewrite DictFacts.set_fresh by (apply Hfresh; now left).
    rewrite IH; auto.
    + now rewrite <- app_assoc.
    + intros m Hm. rewrite keys_app. simpl. intros Hin.
      apply in_app_or in Hin. destruct Hin as [Hin | [Hin | []]].
      * apply (Hfresh m); [now right | assumption].
      * subst; contradiction.
Qed.

Lemma keys_combine (names : list string) (vs : list value) :
  List.length vs = List.length names ->
  Dict.keys (combine names vs) = names.
Proof.
  revert vs. induction names as [| n names IH]; intros [| v vs] H;
    simpl in *; try discriminate; auto.
  f_equal. apply IH. lia.
Qed.

(** C3, as the code has it.  Under a table whose field names are pairwise
    different, [_read_item] returns the names in declaration order, each
    with the value [read_field] decodes from the front of what the fields
    before it left; a STRUCT field is decoded by [_read_item] under
    [key.name]. *)
Theorem read_item_fields_in_order :
  forall (data rest : list byte) (tbls : Tables) (key : string)
         (fields : Table) (item : Item),
    Dict.get tbls key = Some fields ->
    NoDup (map field_name fields) ->
    _read_item X data tbls key = Ok (item, rest) ->
    (exists vs,
        fields_decode X (_read_item X) tbls key fields data vs rest
        /\ item = combine (map field_name fields) vs)
    /\ Dict.keys item = map field_name fields
    /\ List.length item = List.length fields
    /\ (forall d name,
           read_field X (_read_item X) d tbls STRUCT false name key
           = ('(res, d') <- _read_item X d tbls (key ++ "." ++ name) ;;
              Ok (VDict res, d'))).
Proof.
  intros data rest tbls key fields item Hk Hnd H.
  rewrite _read_item_unfold, Hk in H. simpl in H.
  apply _read_item_loop_spec in H. destruct H as [vs [Hd Hi]].
  pose proof (fields_decode_length _ _ _ _ _ _ _ Hd) as Hlen.
  rewrite set_all_fresh in Hi by (auto; intros n _ []).
  simpl in Hi. subst item.
  split; [exists vs; auto |].
  split; [apply keys_combine; now rewrite length_map |].
  split; [| reflexivity].
  rewrite length_combine, length_map. lia.
Qed.


(** *** Indices of records *)

Lemma is_sparse_spec (type : Z) :
  is_sparse type = true <-> type = 2 \/ type = 4.
Proof. unfold is_sparse. rewrite orb_true_iff, !Z.eqb_eq. tauto. Qed.

(** The record loop stores what the headers of the chunk describe. *)
Lemma read_records_headers (fuel : nat) :
  forall tag type tbls index reader self hs reader',
    record_headers X fuel type index reader = Ok (hs, reader') ->
    read_records X fuel tag type tbls index reader self
    = (self' <- store_records X tag tbls hs self ;; Ok (reader', self')).
Proof.
  induction fuel as [| fuel IH];
    intros tag type tbls index reader self hs reader' H; [discriminate |].
  cbn [record_headers read_records] in *.
  destruct (Reader.gamma X reader) as [[[outer n] r1] | e | ];
    cbn [bind] in *; try discriminate.
  destruct (outer - 1 <? 0).
  { inversion H; subst. reflexivity. }
  set (step := if is_sparse type
               then '((index, index_size), reader) <- Reader.gamma X r1 ;;
                    Ok ((index, outer - 1 - index_size), reader)
               else Ok ((index + 1, outer - 1), r1)) in *.
  destruct step as [[[i size] r2] | e | ]; cbn [bind] in *;
    try discriminate.
  destruct (negb (size =? 0)) eqn:Ez; unfold Reader.read in *.
  - destruct (record_headers X fuel type i (drop size r2))
      as [[hs1 r3] | e | ] eqn:E; cbn [bind] in H; try discriminate.
    inversion H; subst.
    cbn [store_records header_size header_index header_data fst snd].
    rewrite Ez.
    destruct (read_item X tag tbls i (take size r2) self); cbn [bind]; auto.
  - destruct (record_headers X fuel type i r2)
      as [[hs1 r3] | e | ] eqn:E; cbn [bind] in H; try discriminate.
    inversion H; subst.
    cbn [store_records header_size header_index header_data fst snd].
    rewrite Ez. auto.
Qed.

(** In a dense chunk the records are numbered one after the other. *)
Lemma dense_headers_count (fuel : nat) :
  forall type index reader hs reader',
    is_sparse type = false ->
    record_headers X fuel type index reader = Ok (hs, reader') ->
    map header_index hs
    = map (fun k => index + 1 + Z.of_nat k) (seq 0 (List.length hs)).
Proof.
  induction fuel as [| fuel IH]; simpl;
    intros type index reader hs reader' Hd H; [discriminate |].
  destruct (Reader.gamma X reader) as [[[outer n] r1] | e | ]; simpl in *;
    try discriminate.
  destruct (outer - 1 <? 0).
  { inversion H; subst. reflexivity. }
  rewrite Hd in H; simpl in H.
  destruct (if negb (outer - 1 =? 0)
            then Reader.read (outer - 1) r1 else ([], r1)) as [data r2].
  destruct (record_headers X fuel type (index + 1) r2)
    as [[hs1 r3] | e | ] eqn:E; simpl in H; try discriminate.
  inversion H; subst. simpl. unfold header_index at 1; simpl.
  f_equal; [lia |].
  rewrite (IH _ _ _ _ _ Hd E). rewrite <- seq_shift, map_map.
  apply map_ext. intros k. lia.
Qed.

(** *** Schema parser *)

Lemma gamma_shrinks (r r1 : Reader.t) (v n : Z) :
  Reader.gamma X r = Ok ((v, n), r1) ->
  (List.length r1 <= List.length r)%nat.
Proof.
  unfold Reader.gamma.
  destruct (gamma_decode X r) as [e | [v' n']]; simpl; intros H;
    inversion H; subst.
  rewrite length_skipn. lia.
Qed.

Lemma drop_shrinks (n : Z) (r : list byte) :
  (List.length (drop n r) <= List.length r)%nat.
Proof. unfold drop. rewrite length_skipn. lia. Qed.

Lemma valid_table_shrinks (r r' : Reader.t) (es : list entry) :
  valid_table X r es r' -> (List.length r' < List.length r)%nat.
Proof.
  induction 1 as [b r Hb
                 | b r kl isz r1 ft name es r' Hb Hg Hft Hn Hrest IH];
    simpl; [lia |].
  pose proof (gamma_shrinks _ _ _ _ Hg).
  pose proof (drop_shrinks kl r1). lia.
Qed.

Lemma table_size_cons (e : entry) (es : list entry) :
  table_size (e :: es)
  = 1 + entry_key_length e + entry_index_size e + table_size es.
Proof. reflexivity. Qed.

(** One iteration of the loop of [_read_table]. *)
Lemma _read_table_loop_step (fuel : nat) (b : byte) (r : Reader.t)
    (acc : Table) (sz : Z) :
  _read_table_loop X (S fuel) (b :: r) acc sz
  = if int8_of_byte b =? 0 then Ok ((acc, sz + 1), r)
    else
      '((key_length, index_size), r1) <- Reader.gamma X r ;;
      ft <- option_or (FieldType_of_int X (Z.land (int8_of_byte b) 15))
              ValueError ;;
      name <- decode (take key_length r1) ;;
      _read_table_loop X fuel (drop key_length r1)
        (acc ++ [mkField ft
                   (negb (Z.land (int8_of_byte b)
                            (FIELD_TYPE_HAS_LENGTH_FIELD X) =? 0))
                   name])%list
        (sz + 1 + (key_length + index_size)).
Proof.
  cbn [_read_table_loop]. unfold Reader.read at 1.
  change (take 1 (b :: r)) with [b]. change (drop 1 (b :: r)) with r.
  cbv iota.
  destruct (int8_of_byte b =? 0); [reflexivity |].
  destruct (Reader.gamma X r) as [[[kl isz] r1] | e | ]; reflexivity.
Qed.

Lemma _read_table_loop_valid (r r' : Reader.t) (es : list entry) :
  valid_table X r es r' ->
  forall fuel acc sz,
    (List.length r <= fuel)%nat ->
    _read_table_loop X fuel r acc sz
    = Ok ((acc ++ map entry_field es, sz + table_size es)%list, r').
Proof.
  induction 1 as [b r Hb
                 | b r key_length isz r1 ft name es r' Hb Hg Hft Hn Hrest IH];
    intros fuel acc sz Hfuel;
    (destruct fuel as [| fuel]; [simpl in Hfuel; lia |]);
    rewrite _read_table_loop_step.
  - rewrite Hb; simpl. rewrite app_nil_r. reflexivity.
  - destruct (Z.eqb_spec (int8_of_byte b) 0) as [E | _]; [contradiction |].
    rewrite Hg; cbn [bind].
    rewrite Hft, Hn; cbn [bind option_or].
    rewrite IH.
    + rewrite <- app_assoc, table_size_cons.
      unfold entry_key_length, entry_index_size.
      cbn [map entry_field fst snd app].
      do 3 f_equal. lia.
    + pose proof (gamma_shrinks _ _ _ _ Hg).
      pose proof (drop_shrinks key_length r1). simpl in Hfuel. lia.
Qed.

Lemma _read_table_loop_sound (fuel : nat) :
  forall r acc sz fields size r',
    _read_table_loop X fuel r acc sz = Ok ((fields, size), r') ->
    exists es,
      valid_table X r es r'
      /\ fields = (acc ++ map entry_field es)%list
      /\ size = sz + table_size es.
Proof.
  induction fuel as [| fuel IH]; intros r acc sz fields size r' H;
    [discriminate |].
  destruct r as [| b r]; [discriminate |].
  rewrite _read_table_loop_step in H.
  destruct (Z.eqb_spec (int8_of_byte b) 0) as [E | E].
  - inversion H; subst. exists []. split; [now constructor |].
    split; [now rewrite app_nil_r | reflexivity].
  - destruct (Reader.gamma X r) as [[[kl isz] r1] | e | ] eqn:Hg;
      cbn [bind] in H; try discriminate.
    destruct (FieldType_of_int X (Z.land (int8_of_byte b) 15)) as [ft |]
      eqn:Hft; cbn [bind option_or] in H; try discriminate.
    destruct (decode (take kl r1)) as [name | e | ] eqn:Hn;
      cbn [bind] in H; try discriminate.
    apply IH in H. destruct H as [es [Hv [Hf Hs]]].
    eexists (_ :: es). split; [econstructor; eauto |].
    split.
    + rewrite Hf, <- app_assoc. reflexivity.
    + rewrite Hs, table_size_cons.
      unfold entry_key_length, entry_index_size. cbn [fst snd]. lia.
Qed.

(** [_read_table] returns exactly on the well-formed tables. *)
Lemma _read_table_spec (r r' : Reader.t) (fields : Table) (size : Z) :
  _read_table X r = Ok ((fields, size), r')
  <-> exists es,
      valid_table X r es r'
      /\ fields = map entry_field es /\ size = table_size es.
Proof.
  unfold _read_table. split.
  - intros H. apply _read_table_loop_sound in H.
    destruct H as [es [Hv [Hf Hs]]]. exists es. repeat split; auto.
  - intros [es [Hv [Hf Hs]]]. subst.
    rewrite (_read_table_loop_valid _ _ _ Hv) by lia. reflexivity.
Qed.

Lemma valid_subtables_shrinks key fs r T n r' T' :
  valid_subtables X key fs r T n r' T' ->
  (List.length r' <= List.length r)%nat.
Proof.
  induction 1 as [key r T
                 | key f fs r T n r' T' Hf Hrest IH
                 | key f fs r es r1 T n1 r2 T2 n2 r' T' Hf Ht Hsub IH1
                     Hrest IH2]; auto.
  pose proof (valid_table_shrinks _ _ _ Ht). lia.
Qed.

Lemma _read_substruct_loop_valid key fs r T n r' T' :
  valid_subtables X key fs r T n r' T' ->
  forall fuel sz,
    (List.length r <= fuel)%nat ->
    _read_substruct_loop X (_read_substruct_fuel X fuel) key fs r T sz
    = Ok ((sz + n, r'), T').
Proof.
  induction 1 as [key r T
                 | key f fs r T n r' T' Hf Hrest IH
                 | key f fs r es r1 T n1 r2 T2 n2 r' T' Hf Ht Hsub IH1
                     Hrest IH2];
    intros fuel sz Hfuel; cbn [_read_substruct_loop].
  - now rewrite Z.add_0_r.
  - rewrite Hf. now apply IH.
  - rewrite Hf.
    assert (Hrt : _read_table X r
                  = Ok ((map entry_field es, table_size es), r1)).
    { apply _read_table_spec. exists es. auto. }
    rewrite Hrt; cbn [bind].
    pose proof (valid_table_shrinks _ _ _ Ht) as Hlt.
    assert (Hnest : _read_substruct_fuel X fuel r1
                      (Dict.set T (key ++ "." ++ field_name f)
                         (map entry_field es))
                      (key ++ "." ++ field_name f)
                    = Ok ((n1, r2), T2)).
    { destruct fuel as [| fuel']; [lia |].
      cbn [_read_substruct_fuel].
      rewrite DictFacts.get_set_same; cbn [bind option_or].
      rewrite IH1 by lia. reflexivity. }
    unfold Table in *. rewrite Hnest; cbn [bind].
    pose proof (valid_subtables_shrinks _ _ _ _ _ _ _ Hsub).
    rewrite IH2 by lia.
    do 3 f_equal. lia.
Qed.

Lemma _read_substruct_loop_sound (fuel : nat) :
  forall key fs r T sz total r' T',
    _read_substruct_loop X (_read_substruct_fuel X fuel) key fs r T sz
    = Ok ((total, r'), T') ->
    exists n, total = sz + n /\ valid_subtables X key fs r T n r' T'.
Proof.
  induction fuel as [| fuel IHfuel];
    induction fs as [| f fs IHfs]; intros r T sz total r' T' H;
    cbn [_read_substruct_loop] in H.
  - inversion H; subst. exists 0. split; [lia | constructor].
  - destruct (is_STRUCT (field_type f)) eqn:Hf.
    + destruct (_read_table X r) as [[[sub ssz] r1] | e | ];
        cbn [bind _read_substruct_fuel] in H; discriminate.
    + apply IHfs in H. destruct H as [n [Hn Hv]].
      exists n. split; [assumption | now constructor].
  - inversion H; subst. exists 0. split; [lia | constructor].
  - destruct (is_STRUCT (field_type f)) eqn:Hf.
    + destruct (_read_table X r) as [[[sub ssz] r1] | e | ] eqn:Hrt;
        cbn [bind] in H; try discriminate.
      apply _read_table_spec in Hrt. destruct Hrt as [es [Ht [Hsub Hssz]]].
      subst sub ssz.
      cbn [_read_substruct_fuel] in H.
      rewrite DictFacts.get_set_same in H; cbn [bind option_or] in H.
      destruct (_read_substruct_loop X (_read_substruct_fuel X fuel)
                  (key ++ "." ++ field_name f) (map entry_field es) r1
                  (Dict.set T (key ++ "." ++ field_name f)
                     (map entry_field es)) 0)
        as [[[n1 r2] T2] | e | ] eqn:Hnest; cbn [bind] in H;
        try discriminate.
      apply IHfuel in Hnest. destruct Hnest as [n1' [Hn1 Hv1]].
      apply IHfs in H. destruct H as [n2 [Hn2 Hv2]].
      exists (table_size es + n1' + n2). split; [lia |].
      eapply vs_struct; eauto.
    + apply IHfs in H. destruct H as [n [Hn Hv]].
      exists n. split; [assumption | now constructor].
Qed.

(** [read_all_tables] returns exactly on a well-formed root table
    followed by its nested tables. *)
Lemma read_all_tables_spec (tag : string) (r r' : Reader.t) (T : Tables)
    (size : Z) :
  read_all_tables X tag r = Ok ((T, size), r')
  <-> exists es r1 n,
      valid_table X r es r1
      /\ valid_subtables X "root" (map entry_field es) r1
           [("root", map entry_field es)] n r' T
      /\ size = table_size es + n.
Proof.
  unfold read_all_tables, _read_substruct. split.
  - intros H.
    destruct (_read_table X r) as [[[root rsz] r1] | e | ] eqn:Hrt;
      cbn [bind] in H; try discriminate.
    apply _read_table_spec in Hrt. destruct Hrt as [es [Ht [Hroot Hrsz]]].
    subst root rsz.
    cbn [_read_substruct_fuel Dict.set Dict.empty Dict.get] in H.
    rewrite string_eqb_refl in H; cbn [bind option_or] in H.
    destruct (_read_substruct_loop X _ "root" (map entry_field es) r1 _ 0)
      as [[[n r2] T2] | e | ] eqn:Hsub; cbn [bind] in H; try discriminate.
    inversion H; subst.
    apply _read_substruct_loop_sound in Hsub.
    destruct Hsub as [n' [Hn Hv]].
    exists es, r1, n'. repeat split; auto. lia.
  - intros [es [r1 [n [Ht [Hv Hs]]]]].
    assert (Hrt : _read_table X r
                  = Ok ((map entry_field es, table_size es), r1)).
    { apply _read_table_spec. exists es. auto. }
    rewrite Hrt; cbn [bind].
    cbn [_read_substruct_fuel Dict.set Dict.empty Dict.get].
    rewrite string_eqb_refl; cbn [bind option_or].
    rewrite (_read_substruct_loop_valid _ _ _ _ _ _ _ Hv) by lia.
    cbn [bind]. subst. reflexivity.
Qed.

(** C2.  On a well-formed table [_read_table] returns the fields and,
    as the size, one per field for the type byte plus the length of the
    name plus the length of the gamma encoding, and one for the zero byte.
    [read_all_tables] returns the size of the root table plus the sizes
    of the nested tables, which it reads depth first in the order of the
    STRUCT fields and registers under [parent.name]. *)
Theorem schema_size_accounting :
  forall (tag : string) (r r1 r' : Reader.t) (es : list entry) (n : Z)
         (T : Tables),
    valid_table X r es r1 ->
    valid_subtables X "root" (map entry_field es) r1
      [("root", map entry_field es)] n r' T ->
    _read_table X r = Ok ((map entry_field es, table_size es), r1)
    /\ table_size es
       = fold_right Z.add 0
           (map (fun e => 1 + entry_key_length e + entry_index_size e) es)
         + 1
    /\ read_all_tables X tag r = Ok ((T, table_size es + n), r').
Proof.
  intros tag r r1 r' es n T Ht Hv.
  split; [apply _read_table_spec; exists es; auto |].
  split.
  - clear. induction es as [| e es IH]; [reflexivity |].
    rewrite table_size_cons, IH. cbn [map fold_right]. lia.
  - apply read_all_tables_spec. exists es, r1, n. auto.
Qed.

(** *** The schema parser comes to an end *)

Lemma _read_table_loop_fuel (fuel : nat) :
  forall r acc sz,
    (List.length r < fuel)%nat ->
    _read_table_loop X fuel r acc sz <> OutOfFuel.
Proof.
  induction fuel as [| fuel IH]; intros r acc sz Hfuel; [lia |].
  destruct r as [| b r]; [discriminate |].
  rewrite _read_table_loop_step.
  destruct (int8_of_byte b =? 0); [discriminate |].
  destruct (Reader.gamma X r) as [[[kl isz] r1] | e | ] eqn:Hg;
    cbn [bind].
  - destruct (FieldType_of_int X _); cbn [bind option_or];
      [| discriminate].
    destruct (decode (take kl r1)) eqn:Ed; cbn [bind]; try discriminate.
    + apply IH. pose proof (gamma_shrinks _ _ _ _ Hg).
      pose proof (drop_shrinks kl r1). simpl in Hfuel. lia.
    + unfold decode in Ed. destruct (utf8_valid _); discriminate.
  - discriminate.
  - unfold Reader.gamma in Hg.
    destruct (gamma_decode X r) as [e | [v n]]; discriminate.
Qed.

Lemma _read_table_total (r : Reader.t) : _read_table X r <> OutOfFuel.
Proof. apply _read_table_loop_fuel. lia. Qed.

Lemma _read_table_shrinks r fields size r' :
  _read_table X r = Ok ((fields, size), r') ->
  (List.length r' < List.length r)%nat.
Proof.
  intros H. apply _read_table_spec in H. destruct H as [es [Hv _]].
  eapply valid_table_shrinks; eauto.
Qed.

Lemma _read_substruct_loop_shrinks fuel key fs r T sz total r' T' :
  _read_substruct_loop X (_read_substruct_fuel X fuel) key fs r T sz
  = Ok ((total, r'), T') ->
  (List.length r' <= List.length r)%nat.
Proof.
  intros H. apply _read_substruct_loop_sound in H.
  destruct H as [n [_ Hv]]. eapply valid_subtables_shrinks; eauto.
Qed.

Lemma _read_substruct_loop_fuel (fuel : nat) :
  forall key fs r T sz,
    (List.length r <= fuel)%nat ->
    _read_substruct_loop X (_read_substruct_fuel X fuel) key fs r T sz
    <> OutOfFuel.
Proof.
  induction fuel as [| fuel IHfuel];
    induction fs as [| f fs IHfs]; intros r T sz Hfuel;
    cbn [_read_substruct_loop]; try discriminate.
  - destruct (is_STRUCT (field_type f)); [| now apply IHfs].
    pose proof (_read_table_total r) as Ht.
    destruct (_read_table X r) as [[[sub ssz] r1] | e | ] eqn:Hrt;
      cbn [bind]; try congruence.
    apply _read_table_shrinks in Hrt. lia.
  - destruct (is_STRUCT (field_type f)); [| now apply IHfs].
    pose proof (_read_table_total r) as Ht.
    destruct (_read_table X r) as [[[sub ssz] r1] | e | ] eqn:Hrt;
      cbn [bind]; try congruence.
    apply _read_table_shrinks in Hrt.
    remember (_read_substruct_fuel X (S fuel) r1
                (Dict.set T (key ++ "." ++ field_name f) sub)
                (key ++ "." ++ field_name f)) as nested eqn:Hnest.
    cbn [_read_substruct_fuel] in Hnest.
    rewrite DictFacts.get_set_same in Hnest; cbn [bind option_or] in Hnest.
    destruct nested as [[[n1 r2] T2] | e | ]; cbn [bind].
    + symmetry in Hnest. apply _read_substruct_loop_shrinks in Hnest.
      apply IHfs. lia.
    + discriminate.
    + symmetry in Hnest. exfalso. revert Hnest. apply IHfuel. lia.
Qed.

Lemma read_all_tables_total (tag : string) (r : Reader.t) :
  read_all_tables X tag r <> OutOfFuel.
Proof.
  unfold read_all_tables, _read_substruct.
  pose proof (_read_table_total r) as Ht.
  destruct (_read_table X r) as [[[root rsz] r1] | e | ]; cbn [bind];
    try congruence.
  cbn [_read_substruct_fuel Dict.set Dict.empty Dict.get].
  rewrite string_eqb_refl; cbn [bind option_or].
  pose proof (_read_substruct_loop_fuel (List.length r1) "root" root r1
                [("root", root)] 0 (Nat.le_refl _)) as Hs.
  destruct (_read_substruct_loop X _ "root" root r1 _ 0)
    as [[[n r2] T2] | e | ]; cbn [bind]; congruence.
Qed.

Lemma read_all_tables_shrinks tag r T size r' :
  read_all_tables X tag r = Ok ((T, size), r') ->
  (List.length r' < List.length r)%nat.
Proof.
  intros H. apply read_all_tables_spec in H.
  destruct H as [es [r1 [n [Ht [Hv _]]]]].
  pose proof (valid_table_shrinks _ _ _ Ht).
  pose proof (valid_subtables_shrinks _ _ _ _ _ _ _ Hv). lia.
Qed.

(** *** The size is the number of bytes read *)

Lemma valid_table_bytes (r r' : Reader.t) (es : list entry) :
  gamma_values_nonneg X ->
  valid_table X r es r' ->
  table_size es = Z.of_nat (List.length r) - Z.of_nat (List.length r').
Proof.
  intros Hnn.
  induction 1 as [b r Hb
                 | b r kl isz r1 ft name es r' Hb Hg Hft Hn Hrest IH].
  - simpl List.length. unfold table_size; simpl fold_right. lia.
  - rewrite table_size_cons, IH.
    unfold entry_key_length, entry_index_size; cbn [fst snd].
    pose proof (valid_table_shrinks _ _ _ Hrest) as Hlt.
    unfold Reader.gamma in Hg.
    destruct (gamma_decode X r) as [e | [v n]] eqn:Eg; simpl in Hg;
      [discriminate |].
    inversion Hg; subst. apply Hnn in Eg.
    unfold drop in *. rewrite !length_skipn in *.
    simpl List.length. lia.
Qed.

Lemma valid_subtables_bytes key fs r T n r' T' :
  gamma_values_nonneg X ->
  valid_subtables X key fs r T n r' T' ->
  n = Z.of_nat (List.length r) - Z.of_nat (List.length r').
Proof.
  intros Hnn.
  induction 1 as [key r T
                 | key f fs r T n r' T' Hf Hrest IH
                 | key f fs r es r1 T n1 r2 T2 n2 r' T' Hf Ht Hsub IH1
                     Hrest IH2]; [lia | assumption |].
  rewrite (valid_table_bytes _ _ _ Hnn Ht), IH1, IH2. lia.
Qed.

(** The size [read_all_tables] reports is the number of bytes it took
    off the stream, from the first type byte of the root table to the
    zero byte of the last nested table. *)
Lemma read_all_tables_consumed tag r T size r' :
  gamma_values_nonneg X ->
  read_all_tables X tag r = Ok ((T, size), r') ->
  size = Z.of_nat (List.length r) - Z.of_nat (List.length r').
Proof.
  intros Hnn H. apply read_all_tables_spec in H.
  destruct H as [es [r1 [n [Ht [Hv Hs]]]]].
  rewrite Hs, (valid_table_bytes _ _ _ Hnn Ht),
    (valid_subtables_bytes _ _ _ _ _ _ _ Hnn Hv). lia.
Qed.

(** *** The decoder comes to an end *)

Lemma bind_fuel {A B : Type} (m : result A) (k : A -> result B) :
  m <> OutOfFuel ->
  (forall a, m = Ok a -> k a <> OutOfFuel) ->
  bind m k <> OutOfFuel.
Proof.
  intros Hm Hk. destruct m as [a | e | ]; simpl;
    [now apply Hk | discriminate | contradiction].
Qed.

Lemma lift_fuel {A : Type} (o : outcome A) : lift o <> OutOfFuel.
Proof. destruct o; discriminate. Qed.

Lemma option_or_fuel {A : Type} (o : option A) (e : exn) :
  option_or o e <> OutOfFuel.
Proof. destruct o; discriminate. Qed.

Lemma decode_fuel (bs : list byte) : decode bs <> OutOfFuel.
Proof. unfold decode. destruct (utf8_valid bs); discriminate. Qed.

Lemma read_uint_fuel (width : nat) (data : list byte) :
  read_uint width data <> OutOfFuel.
Proof. unfold read_uint. destruct (_ <? _)%nat; discriminate. Qed.

Lemma reader_uint_fuel (width : nat) (r : Reader.t) :
  Reader.uint width r <> OutOfFuel.
Proof. unfold Reader.uint. destruct (_ <? _)%nat; discriminate. Qed.

Lemma reader_uint_shrinks (width : nat) (r r' : Reader.t) (v : Z) :
  Reader.uint width r = Ok (v, r') ->
  (List.length r' <= List.length r)%nat.
Proof.
  unfold Reader.uint. destruct (_ <? _)%nat; intros H; inversion H.
  rewrite length_skipn. lia.
Qed.

Lemma gamma_fuel (r : Reader.t) : Reader.gamma X r <> OutOfFuel.
Proof.
  unfold Reader.gamma. destruct (gamma_decode X r) as [e | [v n]];
    discriminate.
Qed.

Lemma gamma_progress (r r1 : Reader.t) (v n : Z) :
  gamma_reads_bytes X ->
  Reader.gamma X r = Ok ((v, n), r1) ->
  (List.length r1 < List.length r)%nat.
Proof.
  intros Hp. unfold Reader.gamma.
  destruct (gamma_decode X r) as [e | [v' n']] eqn:E; simpl; intros H;
    inversion H; subst.
  apply Hp in E. rewrite length_skipn. lia.
Qed.

Lemma read_slxi_chunks_fuel (n : nat) :
  forall data, read_slxi_chunks n data <> OutOfFuel.
Proof.
  induction n as [| n IH]; intros data; cbn [read_slxi_chunks];
    [discriminate |].
  apply bind_fuel; [apply decode_fuel | intros name _].
  apply bind_fuel; [apply IH | intros [c d] _; discriminate].
Qed.

Lemma read_slxi_item_fuel (data : list byte) :
  read_slxi_item X data <> OutOfFuel.
Proof.
  unfold read_slxi_item, read_uint32, read_uint16.
  apply bind_fuel; [apply read_uint_fuel | intros [flags d1] _].
  apply bind_fuel; [apply read_uint_fuel | intros [version d2] _].
  apply bind_fuel; [apply lift_fuel | intros [name d3] _].
  apply bind_fuel.
  - destruct (negb (Z.land flags 4 =? 0)); [| discriminate].
    apply bind_fuel; [apply read_uint_fuel | intros [size d4] _].
    apply bind_fuel; [| intros; discriminate].
    destruct (String.eqb name "version_label"); [| discriminate].
    apply bind_fuel; [apply decode_fuel | intros; discriminate].
  - intros [item d4] _.
    apply bind_fuel; [| intros [item' d5] _; discriminate].
    destruct (negb (Z.land flags 8 =? 0)); [| discriminate].
    apply bind_fuel; [apply read_uint_fuel | intros [cnt d5] _].
    apply bind_fuel; [apply read_slxi_chunks_fuel
                     | intros [c d6] _; discriminate].
Qed.

Lemma read_slxi_items_fuel (n : nat) :
  forall idx tag data self,
    read_slxi_items X n idx tag data self <> OutOfFuel.
Proof.
  induction n as [| n IH]; intros idx tag data self;
    cbn [read_slxi_items]; [discriminate |].
  apply bind_fuel; [apply read_slxi_item_fuel | intros [item d] _].
  apply IH.
Qed.

Lemma read_slxi_total (tag : string) (data : list byte) (self : Savegame) :
  read_slxi X tag data self <> OutOfFuel.
Proof.
  unfold read_slxi, read_uint32.
  apply bind_fuel; [apply read_uint_fuel | intros [v d1] _].
  destruct (v >? 0); [discriminate |].
  apply bind_fuel; [apply read_uint_fuel | intros [f d2] _].
  destruct (negb (f =? 0)); [discriminate |].
  apply bind_fuel; [apply read_uint_fuel | intros [c d3] _].
  apply bind_fuel; [apply read_slxi_items_fuel
                   | intros [s d] _; discriminate].
Qed.

Lemma read_item_total tag tbls index data self :
  read_item X tag tbls index data self <> OutOfFuel.
Proof.
  unfold read_item. destruct (Dict.truthy tbls); [| discriminate].
  apply bind_fuel; [apply _read_item_total | intros [item d] _].
  destruct (negb (junk_allowed tag)); [| discriminate].
  destruct (negb (List.length d =? 0)%nat); discriminate.
Qed.

Lemma read_records_fuel (fuel : nat) :
  gamma_reads_bytes X ->
  forall tag type tbls index reader self,
    (List.length reader < fuel)%nat ->
    read_records X fuel tag type tbls index reader self <> OutOfFuel.
Proof.
  intros Hp.
  induction fuel as [| fuel IH]; intros tag type tbls index reader self Hf;
    [lia |].
  cbn [read_records].
  apply bind_fuel; [apply gamma_fuel | intros [[outer n] r1] Hg].
  apply (gamma_progress _ _ _ _ Hp) in Hg.
  destruct (outer - 1 <? 0); [discriminate |].
  apply bind_fuel.
  - destruct (is_sparse type); [| discriminate].
    apply bind_fuel; [apply gamma_fuel | intros [[i isz] r2] _].
    discriminate.
  - intros [[i size] r2] Hstep.
    assert (Hr2 : (List.length r2 <= List.length r1)%nat).
    { destruct (is_sparse type).
      - destruct (Reader.gamma X r1) as [[[i' isz] r2'] | e | ] eqn:Hg2;
          cbn [bind] in Hstep; try discriminate.
        inversion Hstep; subst. eapply gamma_shrinks; eauto.
      - inversion Hstep; subst. lia. }
    destruct (negb (size =? 0)).
    + unfold Reader.read.
      apply bind_fuel; [apply read_item_total | intros self' _].
      apply IH. pose proof (drop_shrinks size r2). lia.
    + apply IH. lia.
Qed.

Lemma read_records_shrinks (fuel : nat) :
  forall tag type tbls index reader self reader' self',
    read_records X fuel tag type tbls index reader self
    = Ok (reader', self') ->
    (List.length reader' <= List.length reader)%nat.
Proof.
  induction fuel as [| fuel IH];
    intros tag type tbls index reader self reader' self' H;
    [discriminate |].
  cbn [read_records] in H.
  destruct (Reader.gamma X reader) as [[[outer n] r1] | e | ] eqn:Hg;
    cbn [bind] in H; try discriminate.
  apply gamma_shrinks in Hg.
  destruct (outer - 1 <? 0).
  { inversion H; subst. assumption. }
  set (step := if is_sparse type
               then '((index, index_size), reader) <- Reader.gamma X r1 ;;
                    Ok ((index, outer - 1 - index_size), reader)
               else Ok ((index + 1, outer - 1), r1)) in *.
  assert (Hr2 : forall i size r2, step = Ok ((i, size), r2) ->
                  (List.length r2 <= List.length r1)%nat).
  { intros i size r2 Hstep. unfold step in Hstep.
    destruct (is_sparse type).
    - destruct (Reader.gamma X r1) as [[[i' isz] r2'] | e | ] eqn:Hg2;
        cbn [bind] in Hstep; try discriminate.
      inversion Hstep; subst. eapply gamma_shrinks; eauto.
    - inversion Hstep; subst. lia. }
  destruct step as [[[i size] r2] | e | ]; cbn [bind] in H;
    try discriminate.
  specialize (Hr2 i size r2 eq_refl).
  destruct (negb (size =? 0)); unfold Reader.read in H.
  - destruct (read_item X tag tbls i (take size r2) self) as [s | e | ];
      cbn [bind] in H; try discriminate.
    apply IH in H. pose proof (drop_shrinks size r2). lia.
  - apply IH in H. lia.
Qed.

Lemma read_chunk_tables_fuel tag type reader self :
  read_chunk_tables X tag type reader self <> OutOfFuel.
Proof.
  unfold read_chunk_tables. destruct (3 <=? type); [| discriminate].
  apply bind_fuel; [apply gamma_fuel | intros [[outer n] r1] _].
  apply bind_fuel; [apply read_all_tables_total | intros [[T sz] r2] _].
  destruct (negb (sz =? outer - 1)); discriminate.
Qed.

Lemma read_chunk_tables_shrinks tag type reader self T reader' self' :
  read_chunk_tables X tag type reader self = Ok ((T, reader'), self') ->
  (List.length reader' <= List.length reader)%nat.
Proof.
  unfold read_chunk_tables. destruct (3 <=? type).
  - destruct (Reader.gamma X reader) as [[[outer n] r1] | e | ] eqn:Hg;
      cbn [bind]; try discriminate.
    destruct (read_all_tables X tag r1) as [[[T1 sz] r2] | e | ] eqn:Ht;
      cbn [bind]; try discriminate.
    destruct (negb (sz =? outer - 1)); intros H; inversion H; subst.
    apply gamma_shrinks in Hg. apply read_all_tables_shrinks in Ht. lia.
  - intros H; inversion H; subst. lia.
Qed.

Lemma read_chunk_fuel tag reader self :
  gamma_reads_bytes X ->
  read_chunk X tag reader self <> OutOfFuel.
Proof.
  intros Hp. unfold read_chunk, Reader.uint8, Reader.uint24.
  apply bind_fuel; [apply reader_uint_fuel | intros [m r1] _].
  destruct (Z.land m 15 =? 0).
  - apply bind_fuel; [apply reader_uint_fuel | intros [low r2] _].
    unfold Reader.read.
    destruct (String.eqb tag "SLXI").
    + apply bind_fuel; [apply read_slxi_total | intros; discriminate].
    + apply bind_fuel; [apply read_item_total | intros; discriminate].
  - destruct ((1 <=? Z.land m 15) && (Z.land m 15 <=? 4)); [| discriminate].
    apply bind_fuel; [apply read_chunk_tables_fuel
                     | intros [[T r2] s] _].
    apply read_records_fuel; auto.
Qed.

Lemma read_chunk_shrinks tag reader self reader' self' :
  read_chunk X tag reader self = Ok (reader', self') ->
  (List.length reader' <= List.length reader)%nat.
Proof.
  unfold read_chunk, Reader.uint8, Reader.uint24.
  destruct (Reader.uint 1 reader) as [[m r1] | e | ] eqn:Hm;
    cbn [bind]; try discriminate.
  apply reader_uint_shrinks in Hm.
  destruct (Z.land m 15 =? 0).
  - destruct (Reader.uint 3 r1) as [[low r2] | e | ] eqn:Hl;
      cbn [bind]; try discriminate.
    apply reader_uint_shrinks in Hl. unfold Reader.read.
    set (size := Z.lor _ low).
    pose proof (drop_shrinks size r2).
    destruct (String.eqb tag "SLXI").
    + destruct (read_slxi X tag (take size r2) self); cbn [bind];
        intros H'; inversion H'; subst; lia.
    + destruct (read_item X tag Dict.empty (-1) (take size r2) self);
        cbn [bind]; intros H'; inversion H'; subst; lia.
  - destruct ((1 <=? Z.land m 15) && (Z.land m 15 <=? 4)); [| discriminate].
    destruct (read_chunk_tables X tag (Z.land m 15) r1 self)
      as [[[T r2] s] | e | ] eqn:Ht; cbn [bind]; try discriminate.
    apply read_chunk_tables_shrinks in Ht.
    intros H. apply read_records_shrinks in H. lia.
Qed.

Lemma read_chunks_fuel (fuel : nat) :
  gamma_reads_bytes X ->
  forall reader self,
    (List.length reader < fuel)%nat ->
    read_chunks X fuel reader self <> OutOfFuel.
Proof.
  intros Hp. induction fuel as [| fuel IH]; intros reader self Hf; [lia |].
  cbn [read_chunks]. unfold Reader.read.
  destruct ((List.length (take 4 reader) =? 0)%nat || _); [discriminate |].
  destruct (negb (List.length (take 4 reader) =? 4)%nat) eqn:E4;
    [discriminate |].
  apply bind_fuel; [apply decode_fuel | intros tag _].
  apply bind_fuel; [now apply read_chunk_fuel | intros [r1 s1] Hc].
  apply read_chunk_shrinks in Hc.
  apply IH.
  apply negb_false_iff, Nat.eqb_eq in E4.
  unfold take, drop in *. rewrite length_firstn in E4.
  rewrite length_skipn in Hc. lia.
Qed.

(** With a gamma primitive that reads its bytes from the stream, the
    decoder returns or raises on every input. *)
Lemma read_total (fp : list byte) (self : Savegame) :
  gamma_reads_bytes X -> read X fp self <> OutOfFuel.
Proof.
  intros Hp. unfold read, Reader.read, Reader.uint16.
  apply bind_fuel; [apply reader_uint_fuel | intros [v r1] _].
  apply bind_fuel; [apply reader_uint_fuel | intros [w r2] _].
  apply bind_fuel; [apply option_or_fuel | intros dec _].
  apply bind_fuel; [apply lift_fuel | intros stream _].
  unfold read_stream.
  apply bind_fuel; [apply read_chunks_fuel; auto | intros [r3 s] _].
  apply bind_fuel; [| intros; discriminate].
  unfold _check_tail, Reader.uint8, Reader.uint.
  destruct (_ <? _)%nat; discriminate.
Qed.

(** *** What the schema parser leaves behind *)

Lemma skipn_suffix {A : Type} (n : nat) (l : list A) :
  exists pre, l = (pre ++ skipn n l)%list.
Proof. exists (firstn n l). symmetry. apply firstn_skipn. Qed.

Lemma gamma_suffix (r r1 : Reader.t) (v n : Z) :
  Reader.gamma X r = Ok ((v, n), r1) -> exists pre, r = (pre ++ r1)%list.
Proof.
  unfold Reader.gamma.
  destruct (gamma_decode X r) as [e | [v' n']]; simpl; intros H;
    inversion H; subst. apply skipn_suffix.
Qed.

Lemma valid_table_suffix (r r' : Reader.t) (es : list entry) :
  valid_table X r es r' -> exists pre, r = (pre ++ r')%list.
Proof.
  induction 1 as [b r Hb
                 | b r kl isz r1 ft name es r' Hb Hg Hft Hn Hrest IH].
  - exists [b]. reflexivity.
  - destruct (gamma_suffix _ _ _ _ Hg) as [p1 H1].
    destruct (skipn_suffix (Z.to_nat kl) r1) as [p2 H2].
    destruct IH as [p3 H3]. unfold drop in H3.
    exists (b :: p1 ++ p2 ++ p3)%list.
    simpl. f_equal. rewrite H1 at 1. rewrite H2 at 1. rewrite H3 at 1.
    now rewrite <- !app_assoc.
Qed.

Lemma valid_subtables_suffix key fs r T n r' T' :
  valid_subtables X key fs r T n r' T' -> exists pre, r = (pre ++ r')%list.
Proof.
  induction 1 as [key r T
                 | key f fs r T n r' T' Hf Hrest IH
                 | key f fs r es r1 T n1 r2 T2 n2 r' T' Hf Ht Hsub IH1
                     Hrest IH2].
  - exists []. reflexivity.
  - assumption.
  - destruct (valid_table_suffix _ _ _ Ht) as [p1 H1].
    destruct IH1 as [p2 H2]. destruct IH2 as [p3 H3].
    exists (p1 ++ p2 ++ p3)%list. subst. now rewrite <- !app_assoc.
Qed.

Lemma read_all_tables_bytes (tag : string) (r r' : Reader.t) (T : Tables)
    (size : Z) :
  gamma_values_nonneg X ->
  read_all_tables X tag r = Ok ((T, size), r') ->
  size = Z.of_nat (List.length r) - Z.of_nat (List.length r')
  /\ 1 <= size
  /\ r' = drop size r.
Proof.
  intros Hnn H.
  pose proof (read_all_tables_consumed _ _ _ _ _ Hnn H) as Hsize.
  pose proof (read_all_tables_shrinks _ _ _ _ _ H) as Hlt.
  apply read_all_tables_spec in H.
  destruct H as [es [r1 [n [Ht [Hv _]]]]].
  destruct (valid_table_suffix _ _ _ Ht) as [p1 H1].
  destruct (valid_subtables_suffix _ _ _ _ _ _ _ Hv) as [p2 H2].
  split; [exact Hsize |]. split; [lia |].
  subst r r1. rewrite app_assoc in *. rewrite length_app in Hsize.
  unfold drop. replace (Z.to_nat size) with (List.length (p1 ++ p2)%list)
    by lia.
  rewrite skipn_app, Nat.sub_diag, skipn_all. reflexivity.
Qed.

(** X1.  With a gamma primitive whose values are not negative, the size
    [read_all_tables] returns is the number of bytes it took off the
    stream: at least one, and the stream it leaves is the one it got with
    that many bytes dropped. *)
Theorem schema_size_is_bytes_read :
  forall (tag : string) (r r' : Reader.t) (T : Tables) (size : Z),
    gamma_values_nonneg X ->
    read_all_tables X tag r = Ok ((T, size), r') ->
    size = Z.of_nat (List.length r) - Z.of_nat (List.length r')
    /\ 1 <= size
    /\ r' = drop size r.
Proof. intros. eapply read_all_tables_bytes; eauto. Qed.

(** X2.  A chunk of type 3 or 4 is let through only when the size its
    header declares, less one, is the number of bytes the tables take in
    the stream. *)
Theorem accepted_header_declares_its_length :
  forall (tag : string) (type S n : Z) (reader r1 r2 : Reader.t)
         (T : Tables) (self self' : Savegame),
    gamma_values_nonneg X ->
    3 <= type ->
    Reader.gamma X reader = Ok ((S, n), r1) ->
    read_chunk_tables X tag type reader self = Ok ((T, r2), self') ->
    S - 1 = Z.of_nat (List.length r1) - Z.of_nat (List.length r2)
    /\ r2 = drop (S - 1) r1
    /\ Dict.get (tables self') tag = Some (Parsed T).
Proof.
  intros tag type S n reader r1 r2 T self self' Hnn Hty Hg H.
  unfold read_chunk_tables in H.
  destruct (Z.leb_spec 3 type); [| lia].
  rewrite Hg in H; cbn [bind] in H.
  destruct (read_all_tables X tag r1) as [[[T1 sz] r3] | e | ] eqn:Hall;
    cbn [bind] in H; try discriminate.
  destruct (Z.eqb_spec sz (S - 1)) as [E | E]; simpl in H; [| discriminate].
  inversion H; subst.
  destruct (read_all_tables_bytes _ _ _ _ _ Hnn Hall) as [H1 [_ H2]].
  repeat split; auto. simpl. apply DictFacts.get_set_same.
Qed.

(** *** The tables a chunk registers *)

Lemma get_set_not_none {V : Type} (d : Dict.t V) (k k0 : string) (v : V) :
  Dict.get d k0 <> None -> Dict.get (Dict.set d k v) k0 <> None.
Proof.
  intros H. destruct (string_dec k0 k) as [-> | Hne].
  - rewrite DictFacts.get_set_same. discriminate.
  - now rewrite DictFacts.get_set_other.
Qed.

Lemma nested_key_longer (key name : string) :
  (String.length key < String.length (key ++ "." ++ name))%nat.
Proof. rewrite string_length_app. simpl. lia. Qed.

Lemma closed_at_later (T T' : Tables) (k : string) :
  closed_at T k ->
  Dict.get T' k = Dict.get T k ->
  (forall k0, Dict.get T k0 <> None -> Dict.get T' k0 <> None) ->
  closed_at T' k.
Proof.
  intros Hc Heq Hmono fields f Hk Hin Hs. apply Hmono.
  rewrite Heq in Hk. eapply Hc; eauto.
Qed.

(** What reading the nested tables does to the registry: keys stay, keys
    no longer than [key] keep their table, the STRUCT fields at hand get
    theirs, and every table that is set has its nested tables set. *)
Lemma valid_subtables_registry key fs r T n r' T' :
  valid_subtables X key fs r T n r' T' ->
  (forall k, Dict.get T k <> None -> Dict.get T' k <> None)
  /\ (forall k, (String.length k <= String.length key)%nat ->
        Dict.get T' k = Dict.get T k)
  /\ (forall f, In f fs -> is_STRUCT (field_type f) = true ->
        Dict.get T' (key ++ "." ++ field_name f) <> None)
  /\ (forall k, Dict.get T' k = Dict.get T k \/ closed_at T' k).
Proof.
  induction 1 as [key r T
                 | key f fs r T n r' T' Hf Hrest IH
                 | key f fs r es r1 T n1 r2 T2 n2 r' T' Hf Ht Hsub IH1
                     Hrest IH2].
  - repeat split; auto; intros f [].
  - destruct IH as [Ha [Hb [Hc Hd]]]. repeat split; auto.
    intros f0 [<- | Hin] Hs; [congruence | auto].
  - destruct IH1 as [Ha1 [Hb1 [Hc1 Hd1]]].
    destruct IH2 as [Ha2 [Hb2 [Hc2 Hd2]]].
    set (sub_key := key ++ "." ++ field_name f) in *.
    set (sub := map entry_field es) in *.
    assert (Hsub_key : Dict.get T2 sub_key = Some sub).
    { rewrite Hb1 by lia. apply DictFacts.get_set_same. }
    assert (Hclosed : closed_at T2 sub_key).
    { intros fields g Hk Hin Hs. rewrite Hsub_key in Hk.
      inversion Hk; subst fields. now apply Hc1. }
    split; [| split; [| split]].
    + intros k Hk. apply Ha2, Ha1. now apply get_set_not_none.
    + intros k Hk. pose proof (nested_key_longer key (field_name f)).
      fold sub_key in H.
      rewrite Hb2 by assumption. rewrite Hb1 by lia.
      apply DictFacts.get_set_other. intros ->. lia.
    + intros f0 [<- | Hin] Hs; [| auto].
      apply Ha2. fold sub_key. rewrite Hsub_key. discriminate.
    + intros k. destruct (Hd2 k) as [E2 | C2]; [| now right].
      destruct (Hd1 k) as [E1 | C1].
      * destruct (string_dec k sub_key) as [-> | Hne].
        -- right. eapply closed_at_later; eauto.
        -- left. rewrite E2, E1. now apply DictFacts.get_set_other.
      * right. eapply closed_at_later; eauto.
Qed.

(** X3.  The tables [read_all_tables] returns hold a root table and, for
    every STRUCT field of every table in them, a nested table under
    [key.name]. *)
Theorem tables_closed :
  forall (tag : string) (r r' : Reader.t) (T : Tables) (size : Z),
    read_all_tables X tag r = Ok ((T, size), r') ->
    (exists root, Dict.get T "root" = Some root)
    /\ Dict.truthy T = true
    /\ closed T.
Proof.
  intros tag r r' T size H.
  apply read_all_tables_spec in H.
  destruct H as [es [r1 [n [Ht [Hv _]]]]].
  destruct (valid_subtables_registry _ _ _ _ _ _ _ Hv) as [Ha [Hb [Hc Hd]]].
  assert (Hroot : Dict.get T "root" = Some (map entry_field es)).
  { rewrite Hb by lia. reflexivity. }
  split; [eauto |]. split.
  - destruct T; [discriminate | reflexivity].
  - intros k. destruct (Hd k) as [E | C]; [| exact C].
    intros fields f Hk Hin Hs. rewrite E in Hk. simpl in Hk.
    destruct (String.eqb k "root") eqn:Ek; [| discriminate].
    apply String.eqb_eq in Ek. subst k. inversion Hk; subst fields.
    now apply Hc.
Qed.

(** *** What a chunk changes *)

Lemma touches_only_refl (tag : string) (self : Savegame) :
  touches_only tag self self.
Proof. split; auto. Qed.

Lemma touches_only_trans (tag : string) (a b c : Savegame) :
  touches_only tag a b -> touches_only tag b c -> touches_only tag a c.
Proof.
  intros [Hv1 H1] [Hv2 H2]. split; [congruence |].
  intros t Ht. destruct (H1 t Ht) as [A1 B1]. destruct (H2 t Ht) as [A2 B2].
  split; congruence.
Qed.

Lemma set_tables_touches (self : Savegame) (tag : string) (ts : TableSet) :
  touches_only tag self (set_tables self tag ts).
Proof.
  split; [reflexivity |]. intros t Ht. simpl.
  split; [now apply DictFacts.get_set_other | reflexivity].
Qed.

Lemma set_item_touches (self : Savegame) (tag index : string) (item : Item) :
  touches_only tag self (set_item self tag index item).
Proof.
  split; [reflexivity |]. intros t Ht. simpl.
  split; [reflexivity | now apply DictFacts.get_set_other].
Qed.

Lemma read_item_touches tag tbls index data self self' :
  read_item X tag tbls index data self = Ok self' ->
  touches_only tag self self'.
Proof.
  unfold read_item. destruct (Dict.truthy tbls).
  - destruct (_read_item X data tbls "root") as [[item d] | e | ];
      cbn [bind]; try discriminate.
    destruct (negb (junk_allowed tag));
      [destruct (negb (List.length d =? 0)%nat); try discriminate |];
      intros H; inversion H; apply set_item_touches.
  - intros H; inversion H; apply set_tables_touches.
Qed.

Lemma read_slxi_items_touches (n : nat) :
  forall idx tag data self self' rest,
    read_slxi_items X n idx tag data self = Ok (self', rest) ->
    touches_only tag self self'.
Proof.
  induction n as [| n IH]; intros idx tag data self self' rest H;
    cbn [read_slxi_items] in H.
  - inversion H; apply touches_only_refl.
  - destruct (read_slxi_item X data) as [[item d] | e | ]; cbn [bind] in H;
      try discriminate.
    apply IH in H. eapply touches_only_trans; [apply set_item_touches | eauto].
Qed.

Lemma read_slxi_touches tag data self self' :
  read_slxi X tag data self = Ok self' -> touches_only tag self self'.
Proof.
  unfold read_slxi.
  destruct (read_uint32 data) as [[v d1] | e | ]; cbn [bind];
    try discriminate.
  destruct (v >? 0);
    [intros H; inversion H; apply set_tables_touches |].
  destruct (read_uint32 d1) as [[f d2] | e | ]; cbn [bind];
    try discriminate.
  destruct (negb (f =? 0));
    [intros H; inversion H; apply set_tables_touches |].
  destruct (read_uint32 d2) as [[c d3] | e | ]; cbn [bind];
    try discriminate.
  destruct (read_slxi_items X (Z.to_nat c) 0 tag d3 _)
    as [[s rest] | e | ] eqn:Hi; cbn [bind]; try discriminate.
  intros H; inversion H; subst.
  apply read_slxi_items_touches in Hi.
  eapply touches_only_trans; [| exact Hi].
  eapply touches_only_trans; apply set_tables_touches.
Qed.

Lemma read_records_touches (fuel : nat) :
  forall tag type tbls index reader self reader' self',
    read_records X fuel tag type tbls index reader self
    = Ok (reader', self') ->
    touches_only tag self self'.
Proof.
  induction fuel as [| fuel IH];
    intros tag type tbls index reader self reader' self' H;
    [discriminate |].
  cbn [read_records] in H.
  destruct (Reader.gamma X reader) as [[[outer n] r1] | e | ];
    cbn [bind] in H; try discriminate.
  destruct (outer - 1 <? 0).
  { inversion H; subst. apply touches_only_refl. }
  set (step := if is_sparse type
               then '((index, index_size), reader) <- Reader.gamma X r1 ;;
                    Ok ((index, outer - 1 - index_size), reader)
               else Ok ((index + 1, outer - 1), r1)) in *.
  destruct step as [[[i size] r2] | e | ]; cbn [bind] in H;
    try discriminate.
  destruct (negb (size =? 0)); unfold Reader.read in H.
  - destruct (read_item X tag tbls i (take size r2) self) as [s | e | ] eqn:Hi;
      cbn [bind] in H; try discriminate.
    apply read_item_touches in Hi. apply IH in H.
    eapply touches_only_trans; eauto.
  - eapply IH; eauto.
Qed.

Lemma read_chunk_tables_touches tag type reader self T reader' self' :
  read_chunk_tables X tag type reader self = Ok ((T, reader'), self') ->
  touches_only tag self self'.
Proof.
  unfold read_chunk_tables. destruct (3 <=? type).
  - destruct (Reader.gamma X reader) as [[[outer n] r1] | e | ];
      cbn [bind]; try discriminate.
    destruct (read_all_tables X tag r1) as [[[T1 sz] r2] | e | ];
      cbn [bind]; try discriminate.
    destruct (negb (sz =? outer - 1)); intros H; inversion H; subst.
    apply set_tables_touches.
  - intros H; inversion H; subst. apply touches_only_refl.
Qed.

Lemma read_chunk_touches tag reader self reader' self' :
  read_chunk X tag reader self = Ok (reader', self') ->
  touches_only tag self self'.
Proof.
  unfold read_chunk.
  destruct (Reader.uint8 reader) as [[m r1] | e | ]; cbn [bind];
    try discriminate.
  destruct (Z.land m 15 =? 0).
  - destruct (Reader.uint24 r1) as [[low r2] | e | ]; cbn [bind];
      try discriminate.
    unfold Reader.read. set (size := Z.lor _ low).
    destruct (String.eqb tag "SLXI").
    + destruct (read_slxi X tag (take size r2) self) as [s | e | ] eqn:Hs;
        cbn [bind]; try discriminate.
      intros H; inversion H; subst. now apply read_slxi_touches in Hs.
    + destruct (read_item X tag Dict.empty (-1) (take size r2) self)
        as [s | e | ] eqn:Hs; cbn [bind]; try discriminate.
      intros H; inversion H; subst. now apply read_item_touches in Hs.
  - destruct ((1 <=? Z.land m 15) && (Z.land m 15 <=? 4)); [| discriminate].
    destruct (read_chunk_tables X tag (Z.land m 15) r1 self)
      as [[[T r2] s] | e | ] eqn:Ht; cbn [bind]; try discriminate.
    intros H. apply read_chunk_tables_touches in Ht.
    apply read_records_touches in H.
    eapply touches_only_trans; eauto.
Qed.

Lemma read_chunks_version (fuel : nat) :
  forall reader self reader' self',
    read_chunks X fuel reader self = Ok (reader', self') ->
    savegame_version self' = savegame_version self.
Proof.
  induction fuel as [| fuel IH]; intros reader self reader' self' H;
    [discriminate |].
  cbn [read_chunks] in H. unfold Reader.read in H.
  destruct ((List.length (take 4 reader) =? 0)%nat || _).
  { inversion H; reflexivity. }
  destruct (negb (List.length (take 4 reader) =? 4)%nat); [discriminate |].
  destruct (decode (take 4 reader)) as [tag | e | ]; cbn [bind] in H;
    try discriminate.
  destruct (read_chunk X tag (drop 4 reader) self) as [[r1 s1] | e | ] eqn:Hc;
    cbn [bind] in H; try discriminate.
  apply read_chunk_touches in Hc. destruct Hc as [Hv _].
  apply IH in H. congruence.
Qed.

(** X4.  A chunk changes [tables] and [items] under its own tag only, and
    leaves the version alone. *)
Theorem chunk_touches_only_its_tag :
  forall (tag : string) (reader reader' : Reader.t) (self self' : Savegame),
    read_chunk X tag reader self = Ok (reader', self') ->
    savegame_version self' = savegame_version self
    /\ forall t, t <> tag ->
         Dict.get (tables self') t = Dict.get (tables self) t
         /\ Dict.get (items self') t = Dict.get (items self) t.
Proof. intros tag reader reader' self self' H. exact (read_chunk_touches _ _ _ _ _ H). Qed.

(** X5.  A savegame that decodes has at least the eight bytes of its
    header, and the version the object ends with is the big-endian number
    in the fifth and sixth byte, whatever the chunks hold. *)
Theorem version_recorded :
  forall (fp : list byte) (self self' : Savegame),
    read X fp self = Ok self' ->
    (8 <= List.length fp)%nat
    /\ savegame_version self' = Some (be_uint (firstn 2 (skipn 4 fp))).
Proof.
  intros fp self self'. unfold read, Reader.read, Reader.uint16, Reader.uint.
  unfold drop. change (Z.to_nat 4) with 4%nat.
  destruct (Nat.ltb_spec (List.length (skipn 4 fp)) 2); [discriminate |].
  cbn [bind].
  destruct (Nat.ltb_spec (List.length (skipn 2 (skipn 4 fp))) 2);
    [discriminate |].
  cbn [bind].
  destruct (UNCOMPRESS X (take 4 fp)) as [dec |]; cbn [bind option_or];
    [| discriminate].
  destruct (dec _) as [e | stream]; cbn [bind lift]; [discriminate |].
  unfold read_stream.
  destruct (read_chunks X _ stream _) as [[r s] | e | ] eqn:Hc; cbn [bind];
    try discriminate.
  destruct (_check_tail r "file"); cbn [bind]; try discriminate.
  intros H'; inversion H'; subst.
  apply read_chunks_version in Hc. rewrite Hc. simpl.
  rewrite !length_skipn in *. split; [lia | reflexivity].
Qed.

Lemma read_records_schemaless (fuel : nat) :
  forall tag type index reader self reader' self',
    read_records X fuel tag type Dict.empty index reader self
    = Ok (reader', self') ->
    self' = self \/ self' = set_tables self tag (Marked "unsupported").
Proof.
  induction fuel as [| fuel IH];
    intros tag type index reader self reader' self' H; [discriminate |].
  cbn [read_records] in H.
  destruct (Reader.gamma X reader) as [[[outer n] r1] | e | ];
    cbn [bind] in H; try discriminate.
  destruct (outer - 1 <? 0).
  { inversion H; subst. now left. }
  set (step := if is_sparse type
               then '((index, index_size), reader) <- Reader.gamma X r1 ;;
                    Ok ((index, outer - 1 - index_size), reader)
               else Ok ((index + 1, outer - 1), r1)) in *.
  destruct step as [[[i size] r2] | e | ]; cbn [bind] in H;
    try discriminate.
  destruct (negb (size =? 0)); unfold Reader.read in H.
  - cbn [read_item Dict.truthy Dict.empty bind] in H.
    apply IH in H. right. destruct H as [-> | ->]; [reflexivity |].
    apply set_tables_twice.
  - eapply IH; eauto.
Qed.

(** X6.  A chunk of type 1 or 2 has no tables: whatever its records hold,
    it stores no item, and it leaves the object as it was or with its tag
    marked unsupported. *)
Theorem schemaless_chunk_keeps_items :
  forall (tag : string) (m : Z) (reader r1 reader' : Reader.t)
         (self self' : Savegame),
    Reader.uint8 reader = Ok (m, r1) ->
    Z.land m 15 = 1 \/ Z.land m 15 = 2 ->
    read_chunk X tag reader self = Ok (reader', self') ->
    items self' = items self
    /\ (self' = self \/ self' = set_tables self tag (Marked "unsupported")).
Proof.
  intros tag m reader r1 reader' self self' Hm Hty H.
  unfold read_chunk in H. rewrite Hm in H; cbn [bind] in H.
  assert (Hr : read_records X (S (List.length r1)) tag (Z.land m 15)
                 Dict.empty (-1) r1 self = Ok (reader', self')).
  { destruct Hty as [E | E]; rewrite E in *; exact H. }
  apply read_records_schemaless in Hr.
  split; [| exact Hr]. destruct Hr as [-> | ->]; reflexivity.
Qed.

Lemma read_item_stored tag tbls index data self self' :
  Dict.truthy tbls = true ->
  read_item X tag tbls index data self = Ok self' ->
  exists item rest,
    _read_item X data tbls "root" = Ok (item, rest)
    /\ self' = set_item self tag (item_key index) item.
Proof.
  intros Ht H.
  unfold read_item in H. rewrite Ht in H. fold (item_key index) in H.
  destruct (_read_item X data tbls "root") as [[item d] | e | ];
    cbn [bind] in H; try discriminate.
  exists item, d. split; [reflexivity |].
  destruct (negb (junk_allowed tag));
    [destruct (negb (List.length d =? 0)%nat); try discriminate |];
    inversion H; reflexivity.
Qed.

Lemma item_key_inj (i j : Z) :
  i <> -1 -> j <> -1 -> item_key i = item_key j -> i = j.
Proof.
  unfold item_key. intros Hi Hj.
  destruct (Z.eqb_spec i (-1)); [contradiction |].
  destruct (Z.eqb_spec j (-1)); [contradiction |].
  apply str_inj.
Qed.

(** X7.  When [read_item] returns for a chunk with tables, the record it
    decoded is the one found under the tag at the key of its index (["0"]
    for the index -1, the decimal text of any other index); the items at
    the other keys and [tables] are as they were. *)
Theorem read_item_store_lookup :
  forall (tag : string) (tbls : Tables) (index : Z) (data : list byte)
         (self self' : Savegame),
    Dict.truthy tbls = true ->
    read_item X tag tbls index data self = Ok self' ->
    (exists item rest,
        _read_item X data tbls "root" = Ok (item, rest)
        /\ Dict.get (Dict.get_default (items self') tag) (item_key index)
           = Some item)
    /\ (forall k, k <> item_key index ->
          Dict.get (Dict.get_default (items self') tag) k
          = Dict.get (Dict.get_default (items self) tag) k)
    /\ tables self' = tables self.
Proof.
  intros tag tbls index data self self' Ht H.
  unfold read_item in H. rewrite Ht in H. fold (item_key index) in H.
  destruct (_read_item X data tbls "root") as [[item d] | e | ];
    cbn [bind] in H; try discriminate.
  assert (Hs : self' = set_item self tag (item_key index) item).
  { destruct (negb (junk_allowed tag));
      [destruct (negb (List.length d =? 0)%nat); try discriminate |];
      inversion H; reflexivity. }
  subst self'. rewrite items_set_item_same.
  split; [| split; [| reflexivity]].
  - exists item, d. split; [reflexivity | apply DictFacts.get_set_same].
  - intros k Hk. now apply DictFacts.get_set_other.
Qed.

(** X8.  Records at different indices do not overwrite each other: after
    two records of a chunk with tables are read at two different indices,
    neither of them -1, the first one is still found at its index. *)
Theorem distinct_indices_keep_both :
  forall (tag : string) (tbls : Tables) (i j : Z) (d1 d2 : list byte)
         (self s1 s2 : Savegame),
    Dict.truthy tbls = true ->
    i <> -1 -> j <> -1 -> i <> j ->
    read_item X tag tbls i d1 self = Ok s1 ->
    read_item X tag tbls j d2 s1 = Ok s2 ->
    exists item1 rest1 item2 rest2,
      _read_item X d1 tbls "root" = Ok (item1, rest1)
      /\ _read_item X d2 tbls "root" = Ok (item2, rest2)
      /\ Dict.get (Dict.get_default (items s2) tag) (str i) = Some item1
      /\ Dict.get (Dict.get_default (items s2) tag) (str j) = Some item2.
Proof.
  intros tag tbls i j d1 d2 self s1 s2 Ht Hi Hj Hij H1 H2.
  destruct (read_item_stored _ _ _ _ _ _ Ht H1) as [it1 [r1 [E1 S1]]].
  destruct (read_item_stored _ _ _ _ _ _ Ht H2) as [it2 [r2 [E2 S2]]].
  exists it1, r1, it2, r2. repeat split; auto.
  - subst s2 s1. rewrite !items_set_item_same.
    assert (Ki : item_key i = str i).
    { unfold item_key. destruct (Z.eqb_spec i (-1)); [contradiction | auto]. }
    rewrite DictFacts.get_set_other.
    + rewrite Ki. apply DictFacts.get_set_same.
    + rewrite <- Ki. intros E. apply item_key_inj in E; auto.
  - subst s2. rewrite items_set_item_same.
    assert (Kj : item_key j = str j).
    { unfold item_key. destruct (Z.eqb_spec j (-1)); [contradiction | auto]. }
    rewrite Kj. apply DictFacts.get_set_same.
Qed.

(** *** The chunk stream *)

Lemma take_app_exact (n : Z) (a b : list byte) :
  Z.of_nat (List.length a) = n -> take n (a ++ b)%list = a.
Proof.
  intros H. unfold take. replace (Z.to_nat n) with (List.length a) by lia.
  rewrite firstn_app, Nat.sub_diag, firstn_all. simpl. apply app_nil_r.
Qed.

Lemma drop_app_exact (n : Z) (a b : list byte) :
  Z.of_nat (List.length a) = n -> drop n (a ++ b)%list = b.
Proof.
  intros H. unfold drop. replace (Z.to_nat n) with (List.length a) by lia.
  rewrite skipn_app, Nat.sub_diag, skipn_all. reflexivity.
Qed.

(** One chunk of the stream: a tag of four bytes, not all zero, then the
    chunk. *)
Lemma read_chunks_step (fuel : nat) (tag_bytes r : list byte)
    (self : Savegame) :
  List.length tag_bytes = 4%nat ->
  tag_bytes <> zero_tag ->
  read_chunks X (S fuel) (tag_bytes ++ r)%list self
  = (tag <- decode tag_bytes ;;
     '(r', self') <- read_chunk X tag r self ;;
     read_chunks X fuel r' self').
Proof.
  intros Hlen Hnz. cbn [read_chunks]. unfold Reader.read.
  rewrite take_app_exact, drop_app_exact by (rewrite Hlen; reflexivity).
  rewrite Hlen. simpl Nat.eqb. unfold bytes_eqb.
  destruct (list_eq_dec _ tag_bytes _) as [E | _]; [contradiction |].
  reflexivity.
Qed.

Lemma read_chunks_mono (n : nat) :
  forall m reader self,
    (n <= m)%nat ->
    read_chunks X n reader self <> OutOfFuel ->
    read_chunks X m reader self = read_chunks X n reader self.
Proof.
  induction n as [| n IH]; intros m reader self Hle H;
    [exfalso; apply H; reflexivity |].
  destruct m as [| m]; [lia |].
  cbn [read_chunks] in *. unfold Reader.read in *.
  destruct ((List.length (take 4 reader) =? 0)%nat || _); [reflexivity |].
  destruct (negb (List.length (take 4 reader) =? 4)%nat); [reflexivity |].
  destruct (decode (take 4 reader)) as [tag | e | ]; cbn [bind] in *; auto.
  destruct (read_chunk X tag (drop 4 reader) self) as [[r1 s1] | e | ];
    cbn [bind] in *; auto.
  apply IH; [lia | assumption].
Qed.

Lemma reader_uint8_cons (b : byte) (r : Reader.t) :
  Reader.uint8 (b :: r) = Ok (byte_Z b, r).
Proof.
  unfold Reader.uint8, Reader.uint. simpl. unfold be_uint. simpl.
  reflexivity.
Qed.

(** X9.  A chunk whose header byte has a low nibble of 5 or more makes the
    decode fail with "Unknown chunk type.", whatever follows it in the
    stream. *)
Theorem unknown_chunk_type :
  forall (tag_bytes rest : list byte) (tag : string) (b : byte)
         (self : Savegame),
    List.length tag_bytes = 4%nat ->
    tag_bytes <> zero_tag ->
    decode tag_bytes = Ok tag ->
    5 <= Z.land (byte_Z b) 15 ->
    read_stream X (tag_bytes ++ b :: rest)%list self
    = Raise (ValidationException "Unknown chunk type.").
Proof.
  intros tag_bytes rest tag b self Hlen Hnz Hd Hty.
  unfold read_stream. rewrite read_chunks_step by assumption.
  rewrite Hd; cbn [bind]. unfold read_chunk.
  rewrite reader_uint8_cons; cbn [bind].
  destruct (Z.eqb_spec (Z.land (byte_Z b) 15) 0); [lia |].
  assert (Hle : (Z.land (byte_Z b) 15 <=? 4) = false) by (apply Z.leb_gt; lia).
  rewrite Hle, andb_false_r. reflexivity.
Qed.

(** X10.  A stream that ends one, two or three bytes into a tag makes the
    decode fail with "Invalid savegame.". *)
Theorem truncated_tag :
  forall (reader : Reader.t) (self : Savegame),
    (0 < List.length reader < 4)%nat ->
    read_stream X reader self
    = Raise (ValidationException "Invalid savegame.").
Proof.
  intros reader self Hlen. unfold read_stream.
  cbn [read_chunks]. unfold Reader.read, take.
  rewrite firstn_all2 by (simpl; lia).
  destruct (Nat.eqb_spec (List.length reader) 0); [lia |].
  unfold bytes_eqb.
  destruct (list_eq_dec _ reader _) as [E | _].
  { rewrite E in Hlen. simpl in Hlen. lia. }
  destruct (Nat.eqb_spec (List.length reader) 4); [lia |].
  reflexivity.
Qed.

(** X11.  [read] takes the eight bytes of the header before it looks the
    codec up: a file with a magic that [UNCOMPRESS] does not know fails
    with "Unknown savegame compression" and the magic, and no chunk is
    read; a file shorter than its header fails in the reader, known magic
    or not. *)
Theorem unknown_compression :
  forall (fp : list byte) (self : Savegame),
    ((8 <= List.length fp)%nat ->
     UNCOMPRESS X (take 4 fp) = None ->
     read X fp self
     = Raise (ValidationException
                ("Unknown savegame compression " ++ bytes_repr (take 4 fp)
                 ++ ".")))
    /\ ((List.length fp < 8)%nat -> read X fp self = Raise Reader.eof).
Proof.
  intros fp self. unfold read, Reader.read, Reader.uint16, Reader.uint.
  unfold drop. change (Z.to_nat 4) with 4%nat.
  split; intros Hlen.
  - intros Hu.
    destruct (Nat.ltb_spec (List.length (skipn 4 fp)) 2) as [H | H];
      [rewrite length_skipn in H; lia |].
    cbn [bind].
    destruct (Nat.ltb_spec (List.length (skipn 2 (skipn 4 fp))) 2) as [H' | H'];
      [rewrite !length_skipn in H'; lia |].
    cbn [bind]. rewrite Hu. reflexivity.
  - destruct (Nat.ltb_spec (List.length (skipn 4 fp)) 2) as [H | H];
      [reflexivity |].
    cbn [bind].
    destruct (Nat.ltb_spec (List.length (skipn 2 (skipn 4 fp))) 2) as [H' | H'];
      [reflexivity |].
    rewrite !length_skipn in H'. lia.
Qed.

(** X12.  The decode goes chunk by chunk: with a gamma primitive that
    reads its bytes from the stream, decoding a stream that starts with a
    chunk is decoding what the chunk leaves of the stream, from the object
    the chunk leaves; and what the chunk raises, the decode raises. *)
Theorem decode_chunk_by_chunk :
  forall (tag_bytes r : list byte) (tag : string) (self : Savegame),
    gamma_reads_bytes X ->
    List.length tag_bytes = 4%nat ->
    tag_bytes <> zero_tag ->
    decode tag_bytes = Ok tag ->
    (forall r' self',
        read_chunk X tag r self = Ok (r', self') ->
        read_stream X (tag_bytes ++ r)%list self = read_stream X r' self')
    /\ (forall e,
           read_chunk X tag r self = Raise e ->
           read_stream X (tag_bytes ++ r)%list self = Raise e).
Proof.
  intros tag_bytes r tag self Hp Hlen Hnz Hd.
  unfold read_stream. rewrite read_chunks_step by assumption.
  rewrite Hd; cbn [bind]. split.
  - intros r' self' Hc. rewrite Hc; cbn [bind].
    pose proof (read_chunk_shrinks _ _ _ _ _ Hc) as Hs.
    rewrite (read_chunks_mono (S (List.length r'))).
    + reflexivity.
    + rewrite length_app. lia.
    + apply read_chunks_fuel; auto.
  - intros e Hc. rewrite Hc. reflexivity.
Qed.

(** X13.  With a gamma primitive that reads its bytes from the stream,
    every loop of the decoder comes to an end: on every file [read]
    returns or raises. *)
Theorem decoder_terminates :
  forall (fp : list byte) (self : Savegame),
    gamma_reads_bytes X ->
    (exists self', read X fp self = Ok self')
    \/ (exists e, read X fp self = Raise e).
Proof.
  intros fp self Hp. pose proof (read_total fp self Hp) as H.
  destruct (read X fp self) as [s | e | ]; [left | right | contradiction];
    eauto.
Qed.

(** X14.  The recursion of the record decoder through STRUCT fields and of
    the schema parser through nested tables comes to an end on every
    input, whatever the tables and whatever the gamma primitive:
    [_read_item] and [read_all_tables] return or raise. *)
Theorem record_and_schema_recursion_ends :
  forall (data : list byte) (tbls : Tables) (key tag : string)
         (reader : Reader.t),
    ((exists res, _read_item X data tbls key = Ok res)
     \/ (exists e, _read_item X data tbls key = Raise e))
    /\ ((exists res, read_all_tables X tag reader = Ok res)
        \/ (exists e, read_all_tables X tag reader = Raise e)).
Proof.
  intros data tbls key tag reader. split.
  - pose proof (_read_item_total data tbls key) as H.
    destruct (_read_item X data tbls key) as [s | e | ];
      [left | right | contradiction]; eauto.
  - pose proof (read_all_tables_total tag reader) as H.
    destruct (read_all_tables X tag reader) as [s | e | ];
      [left | right | contradiction]; eauto.
Qed.

(** *** Sizes and the SLXI items *)

Lemma lor_shiftl_add (h low k : Z) :
  0 <= k -> 0 <= low < 2 ^ k ->
  Z.lor (Z.shiftl h k) low = h * 2 ^ k + low.
Proof.
  intros Hk Hlow.
  assert (Hland : Z.land (Z.shiftl h k) low = 0).
  { apply Z.bits_inj'. intros n Hn.
    rewrite Z.land_spec, Z.bits_0.
    destruct (Z.lt_ge_cases n k) as [Hlt | Hge].
    - rewrite Z.shiftl_spec_low by assumption. reflexivity.
    - rewrite <- (Z.mod_small low (2 ^ k)) by assumption.
      rewrite Z.mod_pow2_bits_high by lia. apply andb_false_r. }
  rewrite <- Z.lxor_lor by assumption.
  rewrite <- Z.add_nocarry_lxor by assumption.
  now rewrite Z.shiftl_mul_pow2.
Qed.

Lemma be_uint_bound (bs : list byte) :
  0 <= be_uint bs < 2 ^ (8 * Z.of_nat (List.length bs)).
Proof.
  unfold be_uint.
  assert (H : forall acc k, 0 <= k -> 0 <= acc < 2 ^ k ->
            0 <= fold_left (fun a b => Z.lor (Z.shiftl a 8) (byte_Z b)) bs acc
            < 2 ^ (k + 8 * Z.of_nat (List.length bs))).
  { induction bs as [| b bs IH]; intros acc k Hk Hacc.
    - simpl. now rewrite Z.add_0_r.
    - cbn [fold_left].
      replace (k + 8 * Z.of_nat (List.length (b :: bs)))
        with ((k + 8) + 8 * Z.of_nat (List.length bs))
        by (simpl List.length; lia).
      apply IH; [lia |].
      pose proof (byte_Z_range b) as Hb.
      rewrite lor_shiftl_add by (simpl; lia).
      rewrite Z.pow_add_r by lia. change (2 ^ 8) with 256. lia. }
  apply (H 0 0); [lia | simpl; lia].
Qed.

Lemma reader_uint_bound (width : nat) (r r' : Reader.t) (v : Z) :
  Reader.uint width r = Ok (v, r') ->
  0 <= v < 2 ^ (8 * Z.of_nat width).
Proof.
  unfold Reader.uint.
  destruct (Nat.ltb_spec (List.length r) width) as [Hw | Hw]; intros H;
    inversion H.
  pose proof (be_uint_bound (firstn width r)) as Hb.
  rewrite length_firstn in Hb.
  replace (Nat.min width (List.length r)) with width in Hb by lia.
  exact Hb.
Qed.

(** X15.  The size of a chunk of type 0 is the number of 28 bits with the
    high nibble of the header byte on top of the three bytes that follow:
    sixteen million times the nibble plus the 24-bit number, below 2^28;
    the chunk leaves the stream with that many bytes dropped after the
    header. *)
Theorem riff_chunk_size :
  forall (tag : string) (m low : Z) (reader r1 r2 reader' : Reader.t)
         (self self' : Savegame),
    Reader.uint8 reader = Ok (m, r1) ->
    Z.land m 15 = 0 ->
    Reader.uint24 r1 = Ok (low, r2) ->
    read_chunk X tag reader self = Ok (reader', self') ->
    let size := Z.lor (Z.shiftl (Z.shiftr m 4) 24) low in
    size = (m / 16) * 2 ^ 24 + low
    /\ 0 <= size < 2 ^ 28
    /\ reader' = drop size r2.
Proof.
  intros tag m low reader r1 r2 reader' self self' Hm Hty Hlow H size.
  pose proof (reader_uint_bound _ _ _ _ Hm) as Bm.
  pose proof (reader_uint_bound _ _ _ _ Hlow) as Bl.
  change (2 ^ (8 * Z.of_nat 1)) with 256 in Bm.
  change (8 * Z.of_nat 3) with 24 in Bl.
  assert (Hsize : size = (m / 16) * 2 ^ 24 + low).
  { unfold size. rewrite lor_shiftl_add by lia.
    rewrite Z.shiftr_div_pow2 by lia. reflexivity. }
  split; [exact Hsize |]. split.
  - rewrite Hsize.
    assert (Hq : 0 <= m / 16 <= 15).
    { pose proof (Z.div_pos m 16).
      pose proof (Z.div_lt_upper_bound m 16 16). lia. }
    change (2 ^ 28) with (16 * 2 ^ 24). nia.
  - unfold read_chunk in H. rewrite Hm in H; cbn [bind] in H.
    rewrite Hty in H. simpl Z.eqb in H. cbv iota in H.
    rewrite Hlow in H; cbn [bind] in H. unfold Reader.read in H.
    fold size in H.
    destruct (String.eqb tag "SLXI").
    + destruct (read_slxi X tag (take size r2) self); cbn [bind] in H;
        inversion H; reflexivity.
    + destruct (read_item X tag Dict.empty (-1) (take size r2) self);
        cbn [bind] in H; inversion H; reflexivity.
Qed.

Lemma skipn_skipn_add {A : Type} (a b : nat) (l : list A) :
  skipn a (skipn b l) = skipn (b + a) l.
Proof.
  revert l. induction b as [| b IH]; intros l; simpl.
  - reflexivity.
  - destruct l; [now rewrite skipn_nil | apply IH].
Qed.

Lemma read_slxi_chunks_spec (n : nat) :
  forall data chunks rest,
    read_slxi_chunks n data = Ok (chunks, rest) ->
    chunks
    = map (fun i => VStr (string_of_list_byte (firstn 4 (skipn (4 * i) data))))
        (seq 0 n)
    /\ rest = skipn (4 * n) data.
Proof.
  induction n as [| n IH]; intros data chunks rest H;
    cbn [read_slxi_chunks] in H.
  - inversion H; subst. split; reflexivity.
  - unfold decode in H.
    destruct (utf8_valid (take 4 data)); cbn [bind] in H; [| discriminate].
    destruct (read_slxi_chunks n (drop 4 data)) as [[cs d] | e | ] eqn:E;
      cbn [bind] in H; try discriminate.
    inversion H; subst. apply IH in E. destruct E as [Ec Er].
    unfold drop in *. change (Z.to_nat 4) with 4%nat in *.
    split.
    + cbn [seq map]. f_equal.
      rewrite Ec, <- seq_shift, map_map. apply map_ext. intros i.
      rewrite skipn_skipn_add. do 4 f_equal. lia.
    + rewrite Er, skipn_skipn_add. f_equal. lia.
Qed.

(** X16.  The chunk list of an SLXI item has as many names as its count
    says, the name at position [i] made of the bytes [4i] to [4i + 3] of
    what is left of the payload; where the payload ends early the names
    come out short or empty, and none of this raises. *)
Theorem slxi_chunk_list :
  (forall (n : nat) (data rest : list byte) (chunks : list value),
      read_slxi_chunks n data = Ok (chunks, rest) ->
      List.length chunks = n
      /\ chunks
         = map (fun i =>
                  VStr (string_of_list_byte (firstn 4 (skipn (4 * i) data))))
             (seq 0 n)
      /\ rest = skipn (4 * n) data)
  /\ (forall n : nat,
         read_slxi_chunks n [] = Ok (repeat (VStr "") n, [])).
Proof.
  split.
  - intros n data rest chunks H. apply read_slxi_chunks_spec in H.
    destruct H as [Hc Hr]. split; [| split; assumption].
    rewrite Hc, length_map, length_seq. reflexivity.
  - induction n as [| n IH]; cbn [read_slxi_chunks]; [reflexivity |].
    change (decode (take 4 [])) with (Ok (A := string) "").
    cbn [bind]. change (drop 4 []) with (@nil byte).
    rewrite IH. reflexivity.
Qed.

(** X17.  An SLXI item holds what its flags announce: the key
    [extra_data] is there exactly when the list under [flags] names
    "extra data present", the key [chunks] exactly when it names "chunk ID
    list present", after the keys [name], [version] and [flags]. *)
Theorem slxi_item_flags_and_keys :
  forall (data rest : list byte) (item : Item),
    read_slxi_item X data = Ok (item, rest) ->
    exists flags d1,
      read_uint32 data = Ok (flags, d1)
      /\ Dict.get item "flags" = Some (VList (slxi_flag_names flags))
      /\ firstn 3 (Dict.keys item) = ["name"; "version"; "flags"]
      /\ (Dict.get item "extra_data" <> None
          <-> In (VStr "extra data present") (slxi_flag_names flags))
      /\ (Dict.get item "chunks" <> None
          <-> In (VStr "chunk ID list present") (slxi_flag_names flags)).
Proof.
  intros data rest item H. unfold read_slxi_item in H.
  destruct (read_uint32 data) as [[flags d1] | e | ]; cbn [bind] in H;
    try discriminate.
  exists flags, d1. split; [reflexivity |].
  destruct (read_uint16 d1) as [[version d2] | e | ]; cbn [bind] in H;
    try discriminate.
  destruct (lift (read_string X d2)) as [[name d3] | e | ]; cbn [bind] in H;
    try discriminate.
  unfold slxi_flag_names in *.
  destruct (negb (Z.land flags 1 =? 0)), (negb (Z.land flags 2 =? 0)),
    (negb (Z.land flags 4 =? 0)), (negb (Z.land flags 8 =? 0));
    repeat step_bind H;
    inversion H; subst; simpl;
    (split; [reflexivity |]); (split; [reflexivity |]);
    split; split; intros Hx;
    try discriminate; try (exfalso; apply Hx; reflexivity);
    try (intuition congruence).
Qed.

(** *** The end of a table *)

Lemma int8_zero (b : byte) : int8_of_byte b = 0 -> b = x00.
Proof. destruct b; intros H; try reflexivity; discriminate H. Qed.

Lemma valid_table_zero_byte (r r' : Reader.t) (es : list entry) :
  valid_table X r es r' -> exists pre, r = (pre ++ x00 :: r')%list.
Proof.
  induction 1 as [b r Hb
                 | b r kl isz r1 ft name es r' Hb Hg Hft Hn Hrest IH].
  - exists []. apply int8_zero in Hb. now subst.
  - destruct (gamma_suffix _ _ _ _ Hg) as [p1 H1].
    destruct (skipn_suffix (Z.to_nat kl) r1) as [p2 H2].
    destruct IH as [p3 H3]. unfold drop in H3.
    exists (b :: p1 ++ p2 ++ p3)%list.
    simpl. f_equal. rewrite H1 at 1. rewrite H2 at 1. rewrite H3 at 1.
    now rewrite <- !app_assoc.
Qed.

(** X18.  [_read_table] returns only at a zero type byte: the stream it
    leaves starts right after a zero byte of the stream it got, and a
    stream with no byte makes it raise [struct.error]. *)
Theorem table_ends_at_zero_byte :
  forall (r r' : Reader.t) (fields : Table) (size : Z),
    _read_table X r = Ok ((fields, size), r') ->
    (exists pre, r = (pre ++ x00 :: r')%list)
    /\ r <> []
    /\ _read_table X [] = Raise StructError.
Proof.
  intros r r' fields size H.
  apply _read_table_spec in H. destruct H as [es [Hv _]].
  destruct (valid_table_zero_byte _ _ _ Hv) as [pre Hpre].
  split; [eauto |]. split; [| reflexivity].
  subst r. destruct pre; discriminate.
Qed.

(** *** What the records of a chunk leave in [items] *)

Lemma record_headers_sparse (fuel : nat) :
  forall type index reader hs reader',
    is_sparse type = true ->
    record_headers X fuel type index reader = Ok (hs, reader') ->
    Forall (fun h => 0 <= header_size h) hs ->
    sparse_records_at X reader hs.
Proof.
  induction fuel as [| fuel IH]; intros type index reader hs reader' Hs H Hnn;
    [discriminate |].
  cbn [record_headers] in H.
  destruct (Reader.gamma X reader) as [[[outer n] r1] | e | ] eqn:Hg;
    cbn [bind] in H; try discriminate.
  destruct (Z.ltb_spec (outer - 1) 0) as [Hlt | Hge].
  { inversion H; subst. eapply sr_end; eauto. }
  rewrite Hs in H.
  destruct (Reader.gamma X r1) as [[[i isz] r2] | e | ] eqn:Hi;
    cbn [bind] in H; try discriminate.
  destruct (Z.eqb_spec (outer - 1 - isz) 0) as [Ez | Ez];
    cbn [negb] in H; unfold Reader.read in H.
  - destruct (record_headers X fuel type i r2) as [[hs1 r3] | e | ] eqn:E;
      cbn [bind] in H; try discriminate.
    inversion H; subst. inversion Hnn; subst. rewrite Ez.
    eapply sr_empty; eauto.
  - destruct (record_headers X fuel type i (drop (outer - 1 - isz) r2))
      as [[hs1 r3] | e | ] eqn:E; cbn [bind] in H; try discriminate.
    inversion H; subst.
    inversion Hnn as [| h t Hh Ht]; subst. unfold header_size in Hh.
    cbn [fst snd] in Hh.
    eapply sr_record; eauto. lia.
Qed.

(** In a dense chunk no record has a negative size. *)
Lemma dense_headers_nonneg (fuel : nat) :
  forall type index reader hs reader',
    is_sparse type = false ->
    record_headers X fuel type index reader = Ok (hs, reader') ->
    Forall (fun h => 0 <= header_size h) hs.
Proof.
  induction fuel as [| fuel IH]; intros type index reader hs reader' Hd H;
    [discriminate |].
  cbn [record_headers] in H.
  destruct (Reader.gamma X reader) as [[[outer n] r1] | e | ];
    cbn [bind] in H; try discriminate.
  destruct (Z.ltb_spec (outer - 1) 0) as [Hlt | Hge].
  { inversion H; subst. constructor. }
  rewrite Hd in H; cbn [bind] in H.
  destruct (if negb (outer - 1 =? 0)
            then Reader.read (outer - 1) r1 else ([], r1)) as [data r2].
  destruct (record_headers X fuel type (index + 1) r2)
    as [[hs1 r3] | e | ] eqn:E; cbn [bind] in H; try discriminate.
  inversion H; subst. constructor; [exact Hge | eapply IH; eauto].
Qed.

Lemma store_records_no_tables tag tbls hs :
  Dict.truthy tbls = false ->
  forall self self',
    store_records X tag tbls hs self = Ok self' ->
    items self' = items self.
Proof.
  intros Ht. induction hs as [| h hs IH]; intros self self' H;
    cbn [store_records] in H.
  - inversion H; reflexivity.
  - destruct (negb (header_size h =? 0)); [| now apply IH].
    unfold read_item in H. rewrite Ht in H. cbn [bind] in H.
    apply IH in H. exact H.
Qed.

(** What [store_records] leaves under the tag when the chunk has tables:
    [tables] as it was, the keys of no record as they were, and under the
    key of a record, when no later record has the same key, what the
    record decodes to. *)
Lemma store_records_items tag tbls hs :
  Dict.truthy tbls = true ->
  forall self self',
    store_records X tag tbls hs self = Ok self' ->
    tables self' = tables self
    /\ (forall k,
           (forall h, In h hs -> header_size h <> 0 ->
                      item_key (header_index h) <> k) ->
           Dict.get (Dict.get_default (items self') tag) k
           = Dict.get (Dict.get_default (items self) tag) k)
    /\ (forall pre h post,
           hs = (pre ++ h :: post)%list ->
           header_size h <> 0 ->
           (forall h', In h' post -> header_size h' <> 0 ->
                       item_key (header_index h') <> item_key (header_index h)) ->
           exists item rest,
             _read_item X (header_data h) tbls "root" = Ok (item, rest)
             /\ Dict.get (Dict.get_default (items self') tag)
                  (item_key (header_index h))
                = Some item).
Proof.
  intros Ht. induction hs as [| h0 hs IH]; intros self self' H;
    cbn [store_records] in H.
  - inversion H; subst. split; [reflexivity |]. split; [reflexivity |].
    intros pre h post E. destruct pre; discriminate.
  - destruct (Z.eqb_spec (header_size h0) 0) as [Ez | Ez]; cbn [negb] in H.
    + destruct (IH _ _ H) as [Ha [Hb Hc]].
      split; [exact Ha |]. split.
      * intros k Hk. apply Hb. intros h Hin. apply Hk. now right.
      * intros pre h post E Hsz Hlater.
        destruct pre as [| p pre]; cbn [app] in E; inversion E; subst.
        -- contradiction.
        -- eapply Hc; eauto.
    + destruct (read_item X tag tbls (header_index h0) (header_data h0) self)
        as [s1 | e | ] eqn:Hr; cbn [bind] in H; try discriminate.
      destruct (read_item_stored _ _ _ _ _ _ Ht Hr) as [item [rest [Hd Hs1]]].
      destruct (IH _ _ H) as [Ha [Hb Hc]].
      split; [rewrite Ha, Hs1; reflexivity |]. split.
      * intros k Hk. rewrite Hb by (intros h Hin; apply Hk; now right).
        rewrite Hs1, items_set_item_same.
        apply DictFacts.get_set_other. intros E. symmetry in E.
        revert E. apply Hk; [now left | assumption].
      * intros pre h post E Hsz Hlater.
        destruct pre as [| p pre]; cbn [app] in E; inversion E; subst.
        -- exists item, rest. split; [exact Hd |].
           rewrite Hb by (intros h' Hin Hsz'; now apply Hlater).
           rewrite items_set_item_same. apply DictFacts.get_set_same.
        -- eapply Hc; eauto.
Qed.

Lemma item_key_of_nat (k : nat) : item_key (Z.of_nat k) = str (Z.of_nat k).
Proof.
  unfold item_key. destruct (Z.eqb_spec (Z.of_nat k) (-1)); [lia | reflexivity].
Qed.

(** In a list numbered from zero the element at position [k] has the
    number [k], and the elements after it have a larger one. *)
Lemma numbered_split (hs : list header) (k : nat) (h : header) :
  map header_index hs = map Z.of_nat (seq 0 (List.length hs)) ->
  nth_error hs k = Some h ->
  header_index h = Z.of_nat k
  /\ forall h' j, nth_error hs j = Some h' -> header_index h' = Z.of_nat j.
Proof.
  intros Hmap Hk.
  assert (Hall : forall h' j, nth_error hs j = Some h' ->
                              header_index h' = Z.of_nat j).
  { intros h' j Hj.
    pose proof (map_nth_error header_index _ _ Hj) as Hm.
    rewrite Hmap in Hm.
    assert (Hlen : (j < List.length hs)%nat)
      by (apply nth_error_Some; congruence).
    rewrite nth_error_map, nth_error_seq in Hm.
    destruct (Nat.ltb_spec j (List.length hs)) as [_ | Hge]; [| lia].
    simpl in Hm. inversion Hm. reflexivity. }
  split; [now apply Hall | exact Hall].
Qed.

(** C5, as the code has it.  The records of a chunk whose sizes are not
    negative.  In a chunk of type 2 or 4 every record has the index its
    own gamma integer gives, and its size is what is left once the length
    of that encoding is taken off; in a chunk of type 1 or 3 the records,
    empty ones included, have the indices 0, 1, 2, ... in the order of the
    stream.  With tables (types 3 and 4) a record that is not empty is
    found in [items] under the tag at the key of its index, unless a later
    record has the same key; an empty record takes its index and is not
    stored, and no other key changes.  Without tables (types 1 and 2)
    nothing is stored. *)
Theorem stored_record_indices :
  forall (fuel : nat) (tag : string) (type index : Z) (tbls : Tables)
         (reader reader' : Reader.t) (self self' : Savegame)
         (hs : list header),
    record_headers X fuel type index reader = Ok (hs, reader') ->
    Forall (fun h => 0 <= header_size h) hs ->
    read_records X fuel tag type tbls index reader self
    = Ok (reader', self') ->
    let at_key := fun (s : Savegame) (k : string) =>
                    Dict.get (Dict.get_default (items s) tag) k in
    let decoded := fun (h : header) (item : Item) =>
                     exists rest,
                       _read_item X (header_data h) tbls "root"
                       = Ok (item, rest) in
    (is_sparse type = true <-> type = 2 \/ type = 4)
    /\ (is_sparse type = true -> sparse_records_at X reader hs)
    /\ (is_sparse type = false ->
        map header_index hs
        = map (fun k => index + 1 + Z.of_nat k) (seq 0 (List.length hs)))
    /\ (Dict.truthy tbls = false -> items self' = items self)
    /\ (Dict.truthy tbls = true ->
        tables self' = tables self
        /\ (forall k,
               (forall h, In h hs -> header_size h <> 0 ->
                          item_key (header_index h) <> k) ->
               at_key self' k = at_key self k)
        /\ (forall pre h post,
               hs = (pre ++ h :: post)%list ->
               header_size h <> 0 ->
               (forall h', In h' post -> header_size h' <> 0 ->
                           item_key (header_index h')
                           <> item_key (header_index h)) ->
               exists item,
                 decoded h item
                 /\ at_key self' (item_key (header_index h)) = Some item)
        /\ (is_sparse type = false -> index = -1 ->
            forall k h,
              nth_error hs k = Some h ->
              (header_size h <> 0 ->
               exists item,
                 decoded h item
                 /\ at_key self' (str (Z.of_nat k)) = Some item)
              /\ (header_size h = 0 ->
                  at_key self' (str (Z.of_nat k))
                  = at_key self (str (Z.of_nat k))))).
Proof.
  intros fuel tag type index tbls reader reader' self self' hs Hh Hnn Hr
         at_key decoded.
  rewrite (read_records_headers _ _ _ tbls _ _ self _ _ Hh) in Hr.
  destruct (store_records X tag tbls hs self) as [s | e | ] eqn:Hst;
    cbn [bind] in Hr; try discriminate.
  inversion Hr; subst s.
  split; [apply is_sparse_spec |].
  split; [intros Hs; eapply record_headers_sparse; eauto |].
  split; [intros Hd; eapply dense_headers_count; eauto |].
  split; [intros Ht; eapply store_records_no_tables; eauto |].
  intros Ht.
  destruct (store_records_items tag tbls hs Ht _ _ Hst) as [Ha [Hb Hc]].
  split; [exact Ha |]. split; [exact Hb |]. split.
  - intros pre h post E Hsz Hlater.
    destruct (Hc pre h post E Hsz Hlater) as [item [rest [Hd Hg]]].
    exists item. split; [exists rest; exact Hd | exact Hg].
  - intros Hd Hidx k h Hk.
    assert (Hmap : map header_index hs
                   = map Z.of_nat (seq 0 (List.length hs))).
    { rewrite (dense_headers_count _ _ _ _ _ _ Hd Hh). subst index.
      apply map_ext. intros a. lia. }
    destruct (numbered_split hs k h Hmap Hk) as [Hik Hall].
    assert (Hother : forall h', In h' hs ->
                       item_key (header_index h') = str (Z.of_nat k) ->
                       h' = h).
    { intros h' Hin E.
      destruct (In_nth_error _ _ Hin) as [j Hj].
      rewrite (Hall h' j Hj), item_key_of_nat in E.
      apply str_inj in E. apply Nat2Z.inj in E. subst j.
      rewrite Hk in Hj. now inversion Hj. }
    split.
    + intros Hsz.
      destruct (nth_error_split hs k Hk) as [pre [post [E Hlen]]].
      destruct (Hc pre h post E Hsz) as [item [rest [Hdec Hg]]].
      * intros h' Hin Hsz' Ekey.
        destruct (In_nth_error _ _ Hin) as [j Hj].
        assert (Hj' : nth_error hs (k + S j) = Some h').
        { rewrite E, nth_error_app2 by lia.
          replace (k + S j - List.length pre)%nat with (S j) by lia.
          exact Hj. }
        rewrite (Hall h' _ Hj'), Hik, !item_key_of_nat in Ekey.
        apply str_inj in Ekey. lia.
      * exists item. split; [exists rest; exact Hdec |].
        rewrite Hik, item_key_of_nat in Hg. exact Hg.
    + intros Hsz. apply Hb. intros h' Hin Hsz' E.
      apply (Hother h' Hin) in E. subst h'. contradiction.
Qed.

End Properties.

(** ** The sample instance *)

Lemma sample_gamma_parts (s : list byte) (v : Z) (n : nat) :
  Sample.gamma_parts s = Some (v, n) ->
  (0 < n <= List.length s)%nat /\ 0 <= v.
Proof.
  unfold Sample.gamma_parts. destruct s as [| b r]; [discriminate |].
  set (extra := if Z.land (byte_Z b) 128 =? 0 then _ else _).
  assert (Hextra : forall hi k, extra = Some (hi, k) -> 0 <= hi).
  { unfold extra. intros hi k.
    pose proof (byte_Z_range b) as Hb.
    repeat match goal with
           | |- context [if ?c then _ else _] => destruct c
           end; intros H; inversion H; subst;
      try lia; apply Z.land_nonneg; left; lia. }
  destruct extra as [[hi k] |]; [| discriminate].
  specialize (Hextra hi k eq_refl).
  destruct (Nat.ltb_spec (List.length r) k); [discriminate |].
  intros H'; inversion H'; subst. simpl List.length. split; [lia |].
  apply Z.lor_nonneg. split.
  - apply Z.shiftl_nonneg; assumption.
  - apply be_uint_nonneg.
Qed.

Lemma sample_gamma_reads_bytes : gamma_reads_bytes Sample.X.
Proof.
  intros s v n. simpl. unfold Sample.gamma_decode.
  destruct (Sample.gamma_parts s) as [[v' n'] |] eqn:E; [| discriminate].
  intros H; inversion H; subst. now apply sample_gamma_parts in E.
Qed.

Lemma sample_gamma_values_nonneg : gamma_values_nonneg Sample.X.
Proof.
  intros s v n. simpl. unfold Sample.gamma_decode.
  destruct (Sample.gamma_parts s) as [[v' n'] |] eqn:E; [| discriminate].
  intros H; inversion H; subst. now apply sample_gamma_parts in E.
Qed.

(** ** The decoder on the sample inputs *)

Example read_sample_file :
  read Sample.X sample_file init
  = Ok {| savegame_version := Some 1;
          tables :=
            [("ABCD", Parsed [("root", [mkField (SCALAR 2) false "a"])])];
          items :=
            [("ABCD", [("0", [("a", VInt 7)]); ("2", [("a", VInt 9)])])] |}.
Proof. vm_compute. reflexivity. Qed.

Example read_sample_file_junk :
  read Sample.X (sample_file ++ [x00]) init
  = Raise (ValidationException "Junk at the end of file.").
Proof. vm_compute. reflexivity. Qed.

Example read_unknown_compression :
  read Sample.X [x4f; x27; x00; x01; x00; x01; x00; x00] init
  = Raise (ValidationException
             ("Unknown savegame compression b" ++ chr 34 ++ "O'"
              ++ chr 92 ++ "x00" ++ chr 92 ++ "x01" ++ chr 34 ++ ".")).
Proof. vm_compute. reflexivity. Qed.

Example read_nested_schema :
  read_all_tables Sample.X "ABCD" nested_schema
  = Ok ((nested_tables, 11), []).
Proof. vm_compute. reflexivity. Qed.

Example read_record :
  _read_item Sample.X record_bytes record_tables "root"
  = Ok (record_item, []).
Proof. vm_compute. reflexivity. Qed.

Example read_sparse_records :
  record_headers Sample.X 8 4 (-1) sparse_records
  = Ok ([(5, 1, [x07]); (2, 1, [x09])], []).
Proof. vm_compute. reflexivity. Qed.

Example read_dense_records :
  record_headers Sample.X 7 3 (-1) dense_records
  = Ok ([(0, 1, [x07]); (1, 0, []); (2, 1, [x09])], []).
Proof. vm_compute. reflexivity. Qed.

Example read_slxi_payload :
  read_slxi Sample.X "SLXI" slxi_payload init
  = Ok {| savegame_version := None;
          tables := [("SLXI", Marked "slxi")];
          items := [("SLXI", [("0", slxi_item)])] |}.
Proof. vm_compute. reflexivity. Qed.

(** ** Where the code differs from the description *)

(** C3.  A table may declare a name twice; the record then holds the name
    once, with the value decoded last: two fields, one key. *)
Lemma record_keys_name_twice :
  Dict.get twice_tables "root" = Some twice_fields
  /\ List.length twice_fields = 2%nat
  /\ _read_item Sample.X [x01; x02] twice_tables "root"
     = Ok ([("a", VInt 2)], [])
  /\ ~ (forall (X : External) (data rest : list byte) (tbls : Tables)
               (key : string) (fields : Table) (item : Item),
           Dict.get tbls key = Some fields ->
           _read_item X data tbls key = Ok (item, rest) ->
           List.length (Dict.keys item) = List.length fields).
Proof.
  assert (H : _read_item Sample.X [x01; x02] twice_tables "root"
              = Ok ([("a", VInt 2)], [])) by (vm_compute; reflexivity).
  repeat split; auto.
  intros C.
  specialize (C Sample.X [x01; x02] [] twice_tables "root" twice_fields
                [("a", VInt 2)] eq_refl H).
  discriminate C.
Qed.

(** C9.  No chunk of type 0 with another tag than SLXI brings an item
    into [items]: an entry at index "0" under its tag after the chunk was
    there before it. *)
Lemma singleton_chunk_no_item :
  ~ (exists (X : External) (tag : string) (m : Z)
            (reader0 reader reader' : Reader.t) (self self' : Savegame)
            (item : Item),
        Reader.uint8 reader0 = Ok (m, reader)
        /\ Z.land m 15 = 0
        /\ tag <> "SLXI"
        /\ read_chunk X tag reader0 self = Ok (reader', self')
        /\ Dict.get (Dict.get_default (items self') tag) "0" = Some item
        /\ Dict.get (Dict.get_default (items self) tag) "0" <> Some item).
Proof.
  intros [X [tag [m [reader0 [reader [reader' [self [self' [item H]]]]]]]]].
  destruct H as [Hm [Hty [Htag [Hrc [Hnew Hold]]]]].
  apply (singleton_chunk_result X tag m reader0 reader reader' self self'
           Hm Hty Htag) in Hrc.
  subst self'. apply Hold. exact Hnew.
Qed.

(** C5.  A chunk of type 3 whose second record is empty stores its records
    under "0" and "2": the empty record takes the index 1 and is not
    stored, so the stored indices are not 0, 1, 2, ... ; a chunk of type 1
    stores no record at all. *)
Lemma dense_stored_indices_gap :
  read_chunk Sample.X "ABCD" dense_chunk init = Ok ([], dense_chunk_result)
  /\ Dict.keys (Dict.get_default (items dense_chunk_result) "ABCD")
     = ["0"; "2"]
  /\ read_chunk Sample.X "ABCD" schemaless_chunk init
     = Ok ([], set_tables init "ABCD" (Marked "unsupported"))
  /\ ~ (forall (X : External) (tag : string) (m : Z)
               (reader r1 reader' : Reader.t) (self' : Savegame),
           Reader.uint8 reader = Ok (m, r1) ->
           Z.land m 15 = 1 \/ Z.land m 15 = 3 ->
           read_chunk X tag reader init = Ok (reader', self') ->
           let stored := Dict.keys (Dict.get_default (items self') tag) in
           stored
           = map (fun k => str (Z.of_nat k)) (seq 0 (List.length stored))).
Proof.
  assert (H : read_chunk Sample.X "ABCD" dense_chunk init
              = Ok ([], dense_chunk_result)) by (vm_compute; reflexivity).
  split; [exact H |]. split; [reflexivity |].
  split; [vm_compute; reflexivity |].
  intros C.
  specialize (C Sample.X "ABCD" 3 dense_chunk (skipn 1 dense_chunk) []
                dense_chunk_result eq_refl (or_intror eq_refl) H).
  discriminate C.
Qed.

(** ** The theorems on the sample inputs *)

Lemma table_header_size_check_witness :
  read_chunk_tables Sample.X "ABCD" 3 (x0c :: nested_schema) init
  = Ok ((nested_tables, []), set_tables init "ABCD" (Parsed nested_tables))
  /\ read_chunk Sample.X "ABCD" (x03 :: x0d :: nested_schema) init
     = Raise (ValidationException "Table header size mismatch.").
Proof.
  split.
  - apply (table_header_size_check Sample.X "ABCD" 3
             (x03 :: x0c :: nested_schema) (x0c :: nested_schema)
             nested_schema [] init 12 1 11 nested_tables);
      [reflexivity | left; reflexivity | reflexivity
      | vm_compute; reflexivity | reflexivity].
  - apply (table_header_size_check Sample.X "ABCD" 3
             (x03 :: x0d :: nested_schema) (x0d :: nested_schema)
             nested_schema [] init 13 1 11 nested_tables);
      [reflexivity | left; reflexivity | reflexivity
      | vm_compute; reflexivity | discriminate].
Defined.

Lemma nested_root_valid :
  valid_table Sample.X nested_schema nested_root [x02; x01; x62; x00].
Proof.
  unfold nested_schema, nested_root.
  eapply (vt_field Sample.X x0b _ 1 1 _ STRUCT "s");
    [discriminate | reflexivity | reflexivity | reflexivity |].
  eapply (vt_field Sample.X x02 _ 1 1 _ (SCALAR 2) "a");
    [discriminate | reflexivity | reflexivity | reflexivity |].
  apply vt_end. reflexivity.
Qed.

Lemma nested_sub_valid :
  valid_table Sample.X [x02; x01; x62; x00] nested_sub [].
Proof.
  unfold nested_sub.
  eapply (vt_field Sample.X x02 _ 1 1 _ (SCALAR 2) "b");
    [discriminate | reflexivity | reflexivity | reflexivity |].
  apply vt_end. reflexivity.
Qed.

Lemma nested_subtables_valid :
  valid_subtables Sample.X "root" (map entry_field nested_root)
    [x02; x01; x62; x00] [("root", map entry_field nested_root)]
    (table_size nested_sub + 0 + 0) [] nested_tables.
Proof.
  eapply vs_struct; [reflexivity | apply nested_sub_valid | |].
  - apply vs_other; [reflexivity | apply vs_nil].
  - apply vs_other; [reflexivity | apply vs_nil].
Qed.

Lemma schema_size_accounting_witness :
  _read_table Sample.X nested_schema
  = Ok ((map entry_field nested_root, 7), [x02; x01; x62; x00])
  /\ read_all_tables Sample.X "ABCD" nested_schema
     = Ok ((nested_tables, 11), []).
Proof.
  destruct (schema_size_accounting Sample.X "ABCD" nested_schema
              [x02; x01; x62; x00] [] nested_root
              (table_size nested_sub + 0 + 0) nested_tables
              nested_root_valid nested_subtables_valid) as [H1 [_ H2]].
  split; [exact H1 | exact H2].
Defined.

Lemma record_names_distinct :
  NoDup (map field_name [mkField (SCALAR 2) false "a"; mkField STRUCT false "s";
                         mkField (SCALAR 4) true "l"]).
Proof.
  simpl. repeat constructor; simpl; intuition discriminate.
Qed.

Lemma read_item_fields_in_order_witness :
  Dict.keys record_item = ["a"; "s"; "l"]
  /\ List.length record_item = 3%nat.
Proof.
  destruct (read_item_fields_in_order Sample.X record_bytes [] record_tables
              "root" _ record_item eq_refl record_names_distinct
              read_record) as [_ [H1 [H2 _]]].
  split; [exact H1 | exact H2].
Defined.


Lemma read_item_junk_check_witness :
  read_item Sample.X "ABCD" record_tables 3 (record_bytes ++ [x05]) init
  = Raise (ValidationException "Junk at end of chunk ABCD")
  /\ read_item Sample.X "GSDT" record_tables 3 (record_bytes ++ [x05]) init
     = Ok (set_item init "GSDT" "3" record_item).
Proof.
  split.
  - destruct (read_item_junk_check Sample.X "ABCD" record_tables 3
                (record_bytes ++ [x05]) [x05] init record_item eq_refl
                ltac:(vm_compute; reflexivity)) as [_ [H _]].
    apply H. split; [discriminate | reflexivity].
  - destruct (read_item_junk_check Sample.X "GSDT" record_tables 3
                (record_bytes ++ [x05]) [x05] init record_item eq_refl
                ltac:(vm_compute; reflexivity)) as [_ [_ H]].
    apply H. right; reflexivity.
Defined.

Lemma chunk_loop_end_witness :
  read_stream Sample.X zero_tag init = Ok init
  /\ read_stream Sample.X (zero_tag ++ [x01])%list init
     = Raise (ValidationException "Junk at the end of file.").
Proof.
  split.
  - destruct (chunk_loop_end Sample.X 0 zero_tag init) as [_ [_ [_ [H _]]]].
    apply (H [] init); reflexivity.
  - destruct (chunk_loop_end Sample.X 0 (zero_tag ++ [x01])%list init)
      as [_ [_ [_ [H _]]]].
    apply (H [x01] init); [reflexivity | discriminate].
Defined.

Lemma slxi_version_flags_gate_witness :
  read_slxi Sample.X "SLXI" [x00; x00; x00; x01; x00; x09] init
  = Ok (set_tables init "SLXI" (Marked "unsupported"))
  /\ read_slxi Sample.X "SLXI"
       [x00; x00; x00; x00; x00; x00; x01; x00; x09] init
     = Ok (set_tables init "SLXI" (Marked "unsupported")).
Proof.
  split.
  - destruct (slxi_version_flags_gate Sample.X "SLXI"
                [x00; x00; x00; x01; x00; x09] init) as [_ [_ [H _]]].
    apply (H 1 [x00; x09]); [reflexivity | discriminate].
  - destruct (slxi_version_flags_gate Sample.X "SLXI"
                [x00; x00; x00; x00; x00; x00; x01; x00; x09] init)
      as [_ [_ [_ [H _]]]].
    apply (H 0 [x00; x00; x01; x00; x09] 256 [x09]);
      [reflexivity | reflexivity | discriminate].
Defined.

Lemma singleton_chunk_unsupported_witness :
  read_chunk Sample.X "ABCD" [x00; x00; x00; x02; x07; x08; x09] init
  = Ok ([x09], set_tables init "ABCD" (Marked "unsupported")).
Proof.
  apply (singleton_chunk_unsupported Sample.X "ABCD" 0 2
           [x00; x00; x00; x02; x07; x08; x09] [x00; x00; x02; x07; x08; x09]
           [x07; x08; x09] init);
    [reflexivity | reflexivity | reflexivity | discriminate].
Defined.

Lemma slxi_leftover_ignored_witness :
  read_slxi Sample.X "SLXI" slxi_payload init
  = Ok (store_items "SLXI" 0 [slxi_item]
          (set_tables init "SLXI" (Marked "slxi"))).
Proof.
  apply (slxi_leftover_ignored Sample.X "SLXI" slxi_payload
           (skipn 4 slxi_payload) (skipn 8 slxi_payload)
           (skipn 12 slxi_payload) [x09] 1 [slxi_item] init);
    vm_compute; reflexivity.
Defined.

Lemma stored_record_indices_witness :
  (exists item,
      (exists rest,
          _read_item Sample.X [x07] byte_tables "root" = Ok (item, rest))
      /\ Dict.get (Dict.get_default (items sparse_records_result) "ABCD")
           (item_key 5)
         = Some item)
  /\ (exists item,
         (exists rest,
             _read_item Sample.X [x09] byte_tables "root" = Ok (item, rest))
         /\ Dict.get (Dict.get_default (items dense_records_result) "ABCD")
              (str 2)
            = Some item)
  /\ Dict.get (Dict.get_default (items dense_records_result) "ABCD") (str 1)
     = Dict.get (Dict.get_default (items init) "ABCD") (str 1).
Proof.
  assert (Hs : Forall (fun h => 0 <= header_size h)
                 [(5, 1, [x07]); (2, 1, [x09])])
    by (repeat constructor; unfold header_size; simpl; lia).
  assert (Hd : Forall (fun h => 0 <= header_size h)
                 [(0, 1, [x07]); (1, 0, []); (2, 1, [x09])])
    by (repeat constructor; unfold header_size; simpl; lia).
  destruct (stored_record_indices Sample.X 8 "ABCD" 4 (-1) byte_tables
              sparse_records [] init sparse_records_result _
              read_sparse_records Hs ltac:(vm_compute; reflexivity))
    as [_ [_ [_ [_ S]]]].
  destruct (S eq_refl) as [_ [_ [S3 _]]].
  destruct (stored_record_indices Sample.X 7 "ABCD" 3 (-1) byte_tables
              dense_records [] init dense_records_result _
              read_dense_records Hd ltac:(vm_compute; reflexivity))
    as [_ [_ [_ [_ D]]]].
  destruct (D eq_refl) as [_ [_ [_ D4]]].
  split; [| split].
  - apply (S3 [] (5, 1, [x07]) [(2, 1, [x09])] eq_refl).
    + discriminate.
    + intros h' [<- | []] _. vm_compute. discriminate.
  - apply (D4 eq_refl eq_refl 2%nat (2, 1, [x09]) eq_refl). discriminate.
  - apply (D4 eq_refl eq_refl 1%nat (1, 0, []) eq_refl). reflexivity.
Defined.

(** ** The further properties on the sample inputs *)

Lemma schema_size_is_bytes_read_witness :
  11 = Z.of_nat (List.length nested_schema) - Z.of_nat (List.length (@nil byte))
  /\ 1 <= 11
  /\ [] = drop 11 nested_schema.
Proof.
  exact (schema_size_is_bytes_read Sample.X "ABCD" nested_schema []
           nested_tables 11 sample_gamma_values_nonneg read_nested_schema).
Defined.

Lemma accepted_header_declares_its_length_witness :
  12 - 1
  = Z.of_nat (List.length nested_schema) - Z.of_nat (List.length (@nil byte))
  /\ [] = drop (12 - 1) nested_schema
  /\ Dict.get (tables (set_tables init "ABCD" (Parsed nested_tables))) "ABCD"
     = Some (Parsed nested_tables).
Proof.
  apply (accepted_header_declares_its_length Sample.X "ABCD" 3 12 1
           (x0c :: nested_schema) nested_schema [] nested_tables init
           (set_tables init "ABCD" (Parsed nested_tables))
           sample_gamma_values_nonneg);
    [lia | reflexivity | vm_compute; reflexivity].
Defined.

Lemma tables_closed_witness :
  (exists root, Dict.get nested_tables "root" = Some root)
  /\ Dict.truthy nested_tables = true
  /\ closed nested_tables.
Proof.
  exact (tables_closed Sample.X "ABCD" nested_schema [] nested_tables 11
           read_nested_schema).
Defined.

Lemma chunk_touches_only_its_tag_witness :
  savegame_version (set_tables init "ABCD" (Marked "unsupported"))
  = savegame_version init
  /\ forall t, t <> "ABCD" ->
       Dict.get (tables (set_tables init "ABCD" (Marked "unsupported"))) t
       = Dict.get (tables init) t
       /\ Dict.get (items (set_tables init "ABCD" (Marked "unsupported"))) t
          = Dict.get (items init) t.
Proof.
  apply (chunk_touches_only_its_tag Sample.X "ABCD" riff_chunk [x09] init
           (set_tables init "ABCD" (Marked "unsupported"))).
  reflexivity.
Defined.

Lemma version_recorded_witness :
  (8 <= List.length sample_file)%nat
  /\ Some 1 = Some (be_uint (firstn 2 (skipn 4 sample_file))).
Proof.
  exact (version_recorded Sample.X sample_file init _ read_sample_file).
Defined.

Lemma schemaless_chunk_keeps_items_witness :
  items (set_tables init "ABCD" (Marked "unsupported")) = items init
  /\ (set_tables init "ABCD" (Marked "unsupported") = init
      \/ set_tables init "ABCD" (Marked "unsupported")
         = set_tables init "ABCD" (Marked "unsupported")).
Proof.
  apply (schemaless_chunk_keeps_items Sample.X "ABCD" 1 schemaless_chunk
           [x02; x07; x00] [] init
           (set_tables init "ABCD" (Marked "unsupported")));
    [reflexivity | left; reflexivity | vm_compute; reflexivity].
Defined.

Lemma read_item_store_lookup_witness :
  exists item rest,
    _read_item Sample.X record_bytes record_tables "root" = Ok (item, rest)
    /\ Dict.get
         (Dict.get_default (items (set_item init "ABCD" "3" record_item))
            "ABCD")
         (item_key 3)
       = Some item.
Proof.
  destruct (read_item_store_lookup Sample.X "ABCD" record_tables 3
              record_bytes init (set_item init "ABCD" "3" record_item)
              eq_refl ltac:(vm_compute; reflexivity)) as [H _].
  exact H.
Defined.

Lemma distinct_indices_keep_both_witness :
  exists item1 rest1 item2 rest2,
    _read_item Sample.X record_bytes record_tables "root" = Ok (item1, rest1)
    /\ _read_item Sample.X record_bytes record_tables "root"
       = Ok (item2, rest2)
    /\ Dict.get
         (Dict.get_default
            (items (set_item (set_item init "ABCD" "3" record_item)
                      "ABCD" "5" record_item)) "ABCD")
         (str 3)
       = Some item1
    /\ Dict.get
         (Dict.get_default
            (items (set_item (set_item init "ABCD" "3" record_item)
                      "ABCD" "5" record_item)) "ABCD")
         (str 5)
       = Some item2.
Proof.
  apply (distinct_indices_keep_both Sample.X "ABCD" record_tables 3 5
           record_bytes record_bytes init
           (set_item init "ABCD" "3" record_item));
    [reflexivity | discriminate | discriminate | discriminate
    | vm_compute; reflexivity | vm_compute; reflexivity].
Defined.

Lemma unknown_chunk_type_witness :
  read_stream Sample.X (abcd_tag ++ x05 :: [x00; x00])%list init
  = Raise (ValidationException "Unknown chunk type.").
Proof.
  apply (unknown_chunk_type Sample.X abcd_tag [x00; x00] "ABCD" x05 init);
    [reflexivity | discriminate | reflexivity | vm_compute; discriminate].
Defined.

Lemma truncated_tag_witness :
  read_stream Sample.X [x41; x42] init
  = Raise (ValidationException "Invalid savegame.").
Proof.
  apply (truncated_tag Sample.X [x41; x42] init). simpl; lia.
Defined.

Lemma unknown_compression_witness :
  read Sample.X [x4f; x27; x00; x01; x00; x01; x00; x00] init
  = Raise (ValidationException
             ("Unknown savegame compression "
              ++ bytes_repr (take 4 [x4f; x27; x00; x01; x00; x01; x00; x00])
              ++ "."))
  /\ read Sample.X [x4f; x54; x54; x4e; x00] init = Raise Reader.eof.
Proof.
  split.
  - apply (unknown_compression Sample.X
             [x4f; x27; x00; x01; x00; x01; x00; x00] init);
      [simpl; lia | reflexivity].
  - apply (unknown_compression Sample.X [x4f; x54; x54; x4e; x00] init).
    simpl; lia.
Defined.

Lemma decode_chunk_by_chunk_witness :
  read_stream Sample.X (abcd_tag ++ riff_chunk)%list init
  = read_stream Sample.X [x09]
      (set_tables init "ABCD" (Marked "unsupported")).
Proof.
  destruct (decode_chunk_by_chunk Sample.X abcd_tag riff_chunk "ABCD" init
              sample_gamma_reads_bytes eq_refl
              ltac:(discriminate) eq_refl) as [H _].
  apply H. reflexivity.
Defined.

Lemma decoder_terminates_witness :
  (exists self', read Sample.X sample_file init = Ok self')
  \/ (exists e, read Sample.X sample_file init = Raise e).
Proof.
  exact (decoder_terminates Sample.X sample_file init
           sample_gamma_reads_bytes).
Defined.

Lemma riff_chunk_size_witness :
  Z.lor (Z.shiftl (Z.shiftr 0 4) 24) 2 = (0 / 16) * 2 ^ 24 + 2
  /\ 0 <= Z.lor (Z.shiftl (Z.shiftr 0 4) 24) 2 < 2 ^ 28
  /\ [x09] = drop (Z.lor (Z.shiftl (Z.shiftr 0 4) 24) 2) [x07; x08; x09].
Proof.
  apply (riff_chunk_size Sample.X "ABCD" 0 2 riff_chunk
           [x00; x00; x02; x07; x08; x09] [x07; x08; x09] [x09] init
           (set_tables init "ABCD" (Marked "unsupported")));
    reflexivity.
Defined.

Lemma slxi_chunk_list_witness :
  List.length [VStr "ABCD"; VStr "E"] = 2%nat
  /\ read_slxi_chunks 3 [] = Ok (repeat (VStr "") 3, []).
Proof.
  destruct (slxi_chunk_list) as [H1 H2]. split.
  - destruct (H1 2%nat [x41; x42; x43; x44; x45] []
                [VStr "ABCD"; VStr "E"] eq_refl) as [H _].
    exact H.
  - apply H2.
Defined.

Lemma slxi_item_flags_and_keys_witness :
  exists flags d1,
    read_uint32 (skipn 12 slxi_payload) = Ok (flags, d1)
    /\ Dict.get slxi_item "flags" = Some (VList (slxi_flag_names flags))
    /\ firstn 3 (Dict.keys slxi_item) = ["name"; "version"; "flags"]
    /\ (Dict.get slxi_item "extra_data" <> None
        <-> In (VStr "extra data present") (slxi_flag_names flags))
    /\ (Dict.get slxi_item "chunks" <> None
        <-> In (VStr "chunk ID list present") (slxi_flag_names flags)).
Proof.
  apply (slxi_item_flags_and_keys Sample.X (skipn 12 slxi_payload) [x09]
           slxi_item).
  vm_compute; reflexivity.
Defined.

Lemma table_ends_at_zero_byte_witness :
  (exists pre, nested_schema = (pre ++ x00 :: [x02; x01; x62; x00])%list)
  /\ nested_schema <> []
  /\ _read_table Sample.X [] = Raise StructError.
Proof.
  apply (table_ends_at_zero_byte Sample.X nested_schema [x02; x01; x62; x00]
           (map entry_field nested_root) 7).
  vm_compute; reflexivity.
Defined.
